(** * Room coordination and event relay of the multiplayer backend (server.js)

    A shallow embedding of the two socket.io namespaces of server.js
    ([chatNameSpace] on /chat, [updateNameSpace] on /update), of the room
    registry [gameRooms] they share, and of the delivery rules of every
    handler, followed by the properties the specification states about them.

    Conventions.
    - A socket is named by its [socket.id], a string.  Room names and room
      codes are strings too, as in the source.
    - Every [emit] of the source is one [emission]: the set of sockets that
      receive the packet, and the packet.  A handler yields the list of its
      emissions in program order.
    - A handler that raises an exception yields [Throws]; the retry loop of
      createRoom yields [Spins] when its budget of iterations is used up. *)

From Stdlib Require Import Ascii.
From stdpp Require Import gmap strings list fin_maps fin_sets pretty.

Open Scope string_scope.
Open Scope nat_scope.

(** ** Outbound packets *)

Inductive packet :=
| broadcastMessage (id message name : string)
| newVoicePeer (id : string)
| existingVoicePeers (peers : gset string)
| invalidRoomCode (reason : string)
| generateCode (roomCode : string)
| wishlistUpdated (items : list string)
| setID (id : string).

Record emission := Emit { recipients : gset string; payload : packet }.

(** What socket [s] receives from a list of emissions, in order. *)
Definition received (s : string) (out : list emission) : list packet :=
  payload <$> filter (λ e, s ∈ recipients e) out.

Inductive outcome (A : Type) :=
| Done (a : A)
| Throws
| Spins.
Arguments Done {A} a.
Arguments Throws {A}.
Arguments Spins {A}.

(** ** The room adapter of a namespace

    socket.io keeps, per namespace, a map from room name to the set of
    socket ids in the room ([adapter.rooms]), which joinVoiceRoom reads.
    - [socket.join(room)] adds the socket to the room.
    - On connection every socket joins the room named by its own id.
    - When a socket closes it leaves every room, and a room left empty is
      dropped from the map.
    - A broadcast [to(room)] reaches the sockets of [room], and
      [except(room')] takes away every socket of [room'].
    - [socket.to(room)] is that broadcast with the socket's own room
      [socket.id] as the excepted room: socket.io builds it as a broadcast
      operator whose except-set is [{socket.id}], and the adapter turns the
      excepted rooms into the set of ids they hold. *)

Module Adapter.

Definition members (rooms : gmap string (gset string)) (room : string) : gset string :=
  default ∅ (rooms !! room).

Definition join (id room : string) (rooms : gmap string (gset string))
  : gmap string (gset string) :=
  <[room := {[id]} ∪ members rooms room]> rooms.

Definition leave_all (id : string) (rooms : gmap string (gset string))
  : gmap string (gset string) :=
  omap (λ m : gset string,
          if decide (m ∖ {[id]} = ∅) then None else Some (m ∖ {[id]})) rooms.

Definition except_sids (rooms : gmap string (gset string)) (except : list string)
  : gset string :=
  ⋃ (members rooms <$> except).

Definition to (rooms : gmap string (gset string)) (room : string)
    (except : list string) : gset string :=
  members rooms room ∖ except_sids rooms except.

End Adapter.

(** ** The chat namespace *)

Module Chat.

Record userData := { name : string }.

Record state := {
  sockets : gmap string userData;
  rooms : gmap string (gset string)
}.

Definition init : state := {| sockets := ∅; rooms := ∅ |}.

(** chatNameSpace.on('connection'): [socket.userData = { name: '' }], after
    the transport has put the socket in the room of its own id. *)
Definition connection (st : state) (s : string) : state :=
  {| sockets := <[s := {| name := "" |}]> (sockets st);
     rooms := Adapter.join s s (rooms st) |}.

(** socket.on('setName', name => socket.userData.name = name) *)
Definition setName (st : state) (s : string) (n : string) : state :=
  {| sockets := <[s := {| name := n |}]> (sockets st);
     rooms := rooms st |}.

(** socket.on('generateCode', roomCode => socket.join(roomCode)) *)
Definition generateCode (st : state) (s : string) (roomCode : string) : state :=
  {| sockets := sockets st;
     rooms := Adapter.join s roomCode (rooms st) |}.

(** The argument of sendMessage: the handler destructures it as
    [{ message, roomName }]; a client may also send the event with no
    argument at all (or with null). *)
Inductive sendMessage_arg :=
| no_argument
| argument (message roomName : string).

(** chatNameSpace.to(roomName).except(socket.id).emit('broadcastMessage',
    { id, message, name }): the room is the one the payload names.
    Destructuring an absent argument throws. *)
Definition sendMessage (st : state) (s : string) (ud : userData)
    (arg : sendMessage_arg) : outcome (state * list emission) :=
  match arg with
  | no_argument => Throws
  | argument message roomName =>
      Done (st, [Emit (Adapter.to (rooms st) roomName [s])
                      (broadcastMessage s message (name ud))])
  end.

(** socket.join(roomCode); socket.to(roomCode).emit('newVoicePeer',
    socket.id); then existingPeers, the ids of adapter.rooms.get(roomCode)
    other than socket.id, go to the socket itself. *)
Definition joinVoiceRoom (st : state) (s : string) (roomCode : string)
  : state * list emission :=
  let rooms' := Adapter.join s roomCode (rooms st) in
  let existingPeers := Adapter.members rooms' roomCode ∖ {[s]} in
  ({| sockets := sockets st; rooms := rooms' |},
   [Emit (Adapter.to rooms' roomCode [s]) (newVoicePeer s);
    Emit {[s]} (existingVoicePeers existingPeers)]).

(** The socket closes: it leaves its rooms and is forgotten; the
    'disconnect' handler only logs. *)
Definition disconnect (st : state) (s : string) : state :=
  {| sockets := delete s (sockets st);
     rooms := Adapter.leave_all s (rooms st) |}.

Inductive event :=
| on_connection (s : string)
| on_setName (s : string) (n : string)
| on_generateCode (s : string) (roomCode : string)
| on_sendMessage (s : string) (arg : sendMessage_arg)
| on_joinVoiceRoom (s : string) (roomCode : string)
| on_disconnect (s : string).

(** One event of the namespace; [None] when the event cannot occur (a
    connection under an id in use, a packet of a socket that is not
    connected). *)
Definition handle (st : state) (ev : event)
  : option (outcome (state * list emission)) :=
  match ev with
  | on_connection s =>
      match sockets st !! s with
      | None => Some (Done (connection st s, []))
      | Some _ => None
      end
  | on_setName s n =>
      (λ _, Done (setName st s n, [])) <$> sockets st !! s
  | on_generateCode s roomCode =>
      (λ _, Done (generateCode st s roomCode, [])) <$> sockets st !! s
  | on_sendMessage s arg =>
      (λ ud, sendMessage st s ud arg) <$> sockets st !! s
  | on_joinVoiceRoom s roomCode =>
      (λ _, Done (joinVoiceRoom st s roomCode)) <$> sockets st !! s
  | on_disconnect s =>
      (λ _, Done (disconnect st s, [])) <$> sockets st !! s
  end.

Inductive reachable : state → Prop :=
| reachable_init : reachable init
| reachable_step st ev st' out :
    reachable st → handle st ev = Some (Done (st', out)) → reachable st'.

(** A sequence of events, none of which throws. *)
Fixpoint run (st : state) (evs : list event) : option state :=
  match evs with
  | [] => Some st
  | ev :: evs' =>
      match handle st ev with
      | Some (Done (st', _)) => run st' evs'
      | _ => None
      end
  end.

(** Every connected socket sits in the room of its own id. *)
Definition own_room (st : state) : Prop :=
  ∀ s, is_Some (sockets st !! s) → s ∈ Adapter.members (rooms st) s.



(** The first delivery rule of joinVoiceRoom as the specification words it:
    every member of the named room other than the joiner is told of the
    joiner. *)
Definition joinVoiceRoom_tells_every_member (st : state) (s roomCode : string) : Prop :=
  ∀ st' out t,
    handle st (on_joinVoiceRoom s roomCode) = Some (Done (st', out)) →
    t ∈ Adapter.members (rooms st') roomCode → t ≠ s →
    newVoicePeer s ∈ received t out.

End Chat.

(** ** The update namespace and the room registry *)

Module Update.

(** const ROOM_CODE_LENGTH = 6 *)
Definition ROOM_CODE_LENGTH : nat := 6.

(** Modelled from the spec: the class GameRoom of room.js, which is not
    among the sources.  A room holds its code, its member set and its
    wishlist; [addPlayer] inserts the identity of a connection and does
    nothing when it is already there, [removePlayer] takes it out,
    [numPlayers] is the member count, and the wishlist is replaced as a
    whole.  A new room has no member and an empty wishlist. *)
Record GameRoom := {
  code : string;
  players : gset string;
  wishlist : list string
}.

(** Modelled from the spec: [new GameRoom(code)] of room.js, a room with
    no member yet and an empty wishlist. *)
Definition new_GameRoom (c : string) : GameRoom :=
  {| code := c; players := ∅; wishlist := [] |}.

(** Modelled from the spec: [addPlayer] of room.js, "inserts identity into
    member set; no-op if already present". *)
Definition addPlayer (s : string) (room : GameRoom) : GameRoom :=
  {| code := code room; players := {[s]} ∪ players room; wishlist := wishlist room |}.

(** Modelled from the spec: [removePlayer] of room.js, "removes identity";
    the room does not delete itself. *)
Definition removePlayer (s : string) (room : GameRoom) : GameRoom :=
  {| code := code room; players := players room ∖ {[s]}; wishlist := wishlist room |}.

(** Modelled from the spec: [numPlayers] of room.js, the member count. *)
Definition numPlayers (room : GameRoom) : nat := size (players room).

(** [room.wishlist = wishlist], the assignment of the updateWishlist
    handler. *)
Definition setWishlist (items : list string) (room : GameRoom) : GameRoom :=
  {| code := code room; players := players room; wishlist := items |}.

Record userData := { name : string; roomCode : string }.

(** The session state of the specification, read off [userData.roomCode]:
    the handlers test the field for truthiness, and the empty string is the
    only falsy string. *)
Inductive affiliation :=
| Unaffiliated
| InRoom (c : string).

Definition affiliation_of (ud : userData) : affiliation :=
  if decide (roomCode ud = "") then Unaffiliated else InRoom (roomCode ud).

(** [issued] records every socket id the transport has handed out, and
    [cursor] how many values of the random source have been consumed. *)
Record state := {
  gameRooms : gmap string GameRoom;
  sockets : gmap string userData;
  rooms : gmap string (gset string);
  issued : gset string;
  cursor : nat
}.

Definition init : state :=
  {| gameRooms := ∅; sockets := ∅; rooms := ∅; issued := ∅; cursor := 0 |}.

Inductive event :=
| on_connection (s : string)
| on_setID (s : string)
| on_setName (s : string) (n : string)
| on_joinRoom (s : string) (c : string)
| on_createRoom (s : string)
| on_updateWishlist (s : string) (items : list string)
| on_disconnecting (s : string).

Section Handlers.

(** The random source, as the sequence of its draws, and the alphabet of
    the room codes, which has at least one character. *)
Variable random : nat → nat.
Variable alphabet_first : Ascii.ascii.
Variable alphabet_rest : list Ascii.ascii.

Definition alphabet : list Ascii.ascii := alphabet_first :: alphabet_rest.

Definition pick (draw : nat) : Ascii.ascii :=
  nth (draw mod length alphabet) alphabet alphabet_first.

(** Modelled from the spec: generateRoomCode of room.js, which is not among
    the sources: "produces a code of exactly [length] characters from a
    fixed alphabet".  Each character is one draw of the random source; the
    function returns the code and the position of the next draw. *)
Fixpoint generateRoomCode (len : nat) (cur : nat) : string * nat :=
  match len with
  | 0 => ("", cur)
  | S n =>
      let '(rest, cur') := generateRoomCode n (S cur) in
      (String (pick (random cur)) rest, cur')
  end.

(** updateNameSpace.on('connection'): the default name is
    [`Player${Math.floor(Math.random() * 1000)}`]. *)
Definition connection (st : state) (s : string) : state :=
  {| gameRooms := gameRooms st;
     sockets := <[s := {| name := "Player" +:+ pretty (random (cursor st) mod 1000);
                          roomCode := "" |}]> (sockets st);
     rooms := Adapter.join s s (rooms st);
     issued := {[s]} ∪ issued st;
     cursor := S (cursor st) |}.

(** updateNameSpace.emit('setID', socket.id): to every socket of the
    namespace. *)
Definition setID (st : state) (s : string) : state * list emission :=
  (st, [Emit (dom (sockets st)) (setID s)]).

(** socket.on('setName', name => socket.userData.name = name) *)
Definition setName (st : state) (s : string) (ud : userData) (n : string) : state :=
  {| gameRooms := gameRooms st;
     sockets := <[s := {| name := n; roomCode := roomCode ud |}]> (sockets st);
     rooms := rooms st;
     issued := issued st;
     cursor := cursor st |}.

(** socket.on('joinRoom', roomCode => ...): an unknown code is answered
    with invalidRoomCode; otherwise the code is stored in the session, the
    socket is added to the room and to its delivery group, the code is
    acknowledged, and the wishlist is sent along when
    [wishlist && wishlist.length > 0]. *)
Definition joinRoom (st : state) (s : string) (ud : userData) (c : string)
  : state * list emission :=
  match gameRooms st !! c with
  | None => (st, [Emit {[s]} (invalidRoomCode "Not a valid room code.")])
  | Some room =>
      let room' := addPlayer s room in
      ({| gameRooms := <[c := room']> (gameRooms st);
          sockets := <[s := {| name := name ud; roomCode := c |}]> (sockets st);
          rooms := Adapter.join s c (rooms st);
          issued := issued st;
          cursor := cursor st |},
       Emit {[s]} (generateCode c)
       :: match wishlist room' with
          | [] => []
          | _ :: _ => [Emit {[s]} (wishlistUpdated (wishlist room'))]
          end)
  end.

(** [while (gameRooms.has(newCode)) newCode = generateRoomCode(...)], with
    [fuel] bounding the number of iterations. *)
Fixpoint retry (fuel : nat) (reg : gmap string GameRoom) (newCode : string)
    (cur : nat) : option (string * nat) :=
  match reg !! newCode with
  | None => Some (newCode, cur)
  | Some _ =>
      match fuel with
      | 0 => None
      | S fuel' =>
          let '(newCode', cur') := generateRoomCode ROOM_CODE_LENGTH cur in
          retry fuel' reg newCode' cur'
      end
  end.

(** socket.on('createRoom', ...): a first code is generated, the loop
    replaces it while it is a key of the registry, then the code is stored
    in the session, the new room is set in the registry with the socket as
    its first player, and the code is acknowledged. *)
Definition createRoom (fuel : nat) (st : state) (s : string) (ud : userData)
  : outcome (state * list emission) :=
  let '(newCode0, cur0) := generateRoomCode ROOM_CODE_LENGTH (cursor st) in
  match retry fuel (gameRooms st) newCode0 cur0 with
  | None => Spins
  | Some (newCode, cur) =>
      Done ({| gameRooms := <[newCode := addPlayer s (new_GameRoom newCode)]> (gameRooms st);
               sockets := <[s := {| name := name ud; roomCode := newCode |}]> (sockets st);
               rooms := Adapter.join s newCode (rooms st);
               issued := issued st;
               cursor := cur |},
            [Emit {[s]} (generateCode newCode)])
  end.

(** socket.on('updateWishlist', wishlist => ...): nothing when the stored
    code is falsy or is no key of the registry; otherwise the wishlist of
    the room is assigned and sent with
    [updateNameSpace.to(roomCode).emit('wishlistUpdated', wishlist)]. *)
Definition updateWishlist (st : state) (s : string) (ud : userData)
    (items : list string) : state * list emission :=
  if decide (roomCode ud = "") then (st, [])
  else
    match gameRooms st !! roomCode ud with
    | Some room =>
        ({| gameRooms := <[roomCode ud := setWishlist items room]> (gameRooms st);
            sockets := sockets st;
            rooms := rooms st;
            issued := issued st;
            cursor := cursor st |},
         [Emit (Adapter.to (rooms st) (roomCode ud) []) (wishlistUpdated items)])
    | None => (st, [])
    end.

(** socket.on('disconnecting', ...): the registry after the handler, and
    [None] when the handler throws because [gameRooms.get(roomCode)] is
    undefined and [room.removePlayer] is called on it. *)
Definition disconnecting (st : state) (s : string) (ud : userData)
  : option (gmap string GameRoom) :=
  if decide (roomCode ud = "") then Some (gameRooms st)
  else
    match gameRooms st !! roomCode ud with
    | None => None
    | Some room =>
        let room' := removePlayer s room in
        if decide (numPlayers room' = 0)
        then Some (delete (roomCode ud) (gameRooms st))
        else Some (<[roomCode ud := room']> (gameRooms st))
    end.

(** The socket closes: 'disconnecting' runs while the socket still is in
    its rooms, then the socket leaves them and is forgotten. *)
Definition close (st : state) (s : string) (ud : userData) : outcome (state * list emission) :=
  match disconnecting st s ud with
  | None => Throws
  | Some reg =>
      Done ({| gameRooms := reg;
               sockets := delete s (sockets st);
               rooms := Adapter.leave_all s (rooms st);
               issued := issued st;
               cursor := cursor st |}, [])
  end.

(** One event of the namespace; [None] when the event cannot occur: a
    packet of a socket that is not connected, or a connection under an id
    that is not a fresh socket.io id (20 characters, never issued). *)
Definition handle (fuel : nat) (st : state) (ev : event)
  : option (outcome (state * list emission)) :=
  match ev with
  | on_connection s =>
      if decide (String.length s = 20 ∧ s ∉ issued st)
      then Some (Done (connection st s, []))
      else None
  | on_setID s =>
      (λ _, Done (setID st s)) <$> sockets st !! s
  | on_setName s n =>
      (λ ud, Done (setName st s ud n, [])) <$> sockets st !! s
  | on_joinRoom s c =>
      (λ ud, Done (joinRoom st s ud c)) <$> sockets st !! s
  | on_createRoom s =>
      (λ ud, createRoom fuel st s ud) <$> sockets st !! s
  | on_updateWishlist s items =>
      (λ ud, Done (updateWishlist st s ud items)) <$> sockets st !! s
  | on_disconnecting s =>
      (λ ud, close st s ud) <$> sockets st !! s
  end.

Inductive reachable : state → Prop :=
| reachable_init : reachable init
| reachable_step st fuel ev st' out :
    reachable st → handle fuel st ev = Some (Done (st', out)) → reachable st'.

(** A sequence of events, none of which throws or spins. *)
Fixpoint run (fuel : nat) (st : state) (evs : list event) : option state :=
  match evs with
  | [] => Some st
  | ev :: evs' =>
      match handle fuel st ev with
      | Some (Done (st', _)) => run fuel st' evs'
      | _ => None
      end
  end.

(** A run of createRoom requests, one per listed socket, returning the
    codes handed out. *)
Fixpoint createRooms (fuel : nat) (st : state) (ss : list string)
  : option (state * list string) :=
  match ss with
  | [] => Some (st, [])
  | s :: ss' =>
      match handle fuel st (on_createRoom s) with
      | Some (Done (st', [Emit _ (generateCode c)])) =>
          match createRooms fuel st' ss' with
          | Some (st'', cs) => Some (st'', c :: cs)
          | None => None
          end
      | _ => None
      end
  end.

(** An event writes the wishlist of room [c] when it is the updateWishlist
    of a session that stores the code [c]. *)
Definition writes_wishlist_of (c : string) (st : state) (ev : event) : Prop :=
  match ev with
  | on_updateWishlist t _ => ∃ ud, sockets st !! t = Some ud ∧ roomCode ud = c
  | _ => False
  end.

(** A run of events from [st] that leaves room [c] alone: every event is
    handled, none writes the wishlist of [c], and the code [c] is in the
    registry after each of them (the room is not deleted on the way). *)
Fixpoint room_undisturbed (fuel : nat) (c : string) (st : state) (evs : list event)
  : Prop :=
  match evs with
  | [] => True
  | ev :: evs' =>
      match handle fuel st ev with
      | Some (Done (st', _)) =>
          ¬ writes_wishlist_of c st ev ∧ is_Some (gameRooms st' !! c) ∧
          room_undisturbed fuel c st' evs'
      | _ => False
      end
  end.

End Handlers.

(** The invariant of the namespace: registry keys are room codes and their
    rooms are inhabited by issued ids, the adapter room of a code holds the
    connected members of the room, a session that stores a code is a member
    of the room of that code, and no other adapter room but a socket's own
    is in use. *)
Record inv (st : state) : Prop := {
  inv_codes : ∀ c room, gameRooms st !! c = Some room →
    String.length c = ROOM_CODE_LENGTH ∧ players room ≠ ∅ ∧
    players room ⊆ issued st ∧
    Adapter.members (rooms st) c = players room ∩ dom (sockets st);
  inv_sockets : ∀ s ud, sockets st !! s = Some ud →
    String.length s = 20 ∧ s ∈ issued st ∧
    (roomCode ud ≠ "" →
     ∃ room, gameRooms st !! roomCode ud = Some room ∧ s ∈ players room);
  inv_rooms : ∀ x, gameRooms st !! x = None →
    Adapter.members (rooms st) x ⊆ {[x]} ∩ dom (sockets st)
}.

(** The k-th code the retry loop of createRoom looks at, counting from the
    one generated before the loop: every code takes ROOM_CODE_LENGTH draws. *)
Definition candidate (random : nat → nat) (a : Ascii.ascii) (l : list Ascii.ascii)
    (cur k : nat) : string :=
  (generateRoomCode random a l ROOM_CODE_LENGTH (cur + ROOM_CODE_LENGTH * k)).1.

(** The session state machine as the specification words it: a session
    that is InRoom keeps its code through every event that leaves it
    connected. *)
Definition keeps_room (random : nat → nat) (a : Ascii.ascii) (l : list Ascii.ascii)
    (fuel : nat) (st : state) (ev : event) : Prop :=
  ∀ st' out s c ud ud',
    handle random a l fuel st ev = Some (Done (st', out)) →
    sockets st !! s = Some ud → affiliation_of ud = InRoom c →
    sockets st' !! s = Some ud' → affiliation_of ud' = InRoom c.

End Update.

(** ** Origin admission *)

Module Cors.

(** const allowedOrigins = [...] *)
Definition allowedOrigins : list string :=
  ["http://localhost:5173";
   "https://multiplayer-r3f.vercel.app";
   "https://multiplayer.strategyfox.in"].

(** What the origin function hands to its callback: [callback(null, true)]
    or [callback(new Error(message))]. *)
Inductive verdict :=
| allow
| refuse (message : string).

(** The origin function of [app.use(cors({ origin: ... }))].  [origin] is
    undefined, here [None], when the request names no origin; [!origin]
    also holds of the empty string. *)
Definition http_origin (origin : option string) : verdict :=
  match origin with
  | None => allow
  | Some o =>
      if decide (o = "") then allow
      else if bool_decide (o ∈ allowedOrigins) then allow
      else refuse "Not allowed by CORS."
  end.

(** The origin function of [new Server(httpServer, { cors: { origin: ... } })]. *)
Definition io_origin (origin : option string) : verdict :=
  match origin with
  | None => allow
  | Some o =>
      if decide (o = "") then allow
      else if bool_decide (o ∈ allowedOrigins) then allow
      else refuse "Not allowed by CORS."
  end.

End Cors.

(** A fact about the state [st] a concrete run ends in, where [Hst] equates
    the computed state with [st]. *)
Ltac by_run Hst := rewrite <- Hst; vm_compute; first [reflexivity | done].

(** * Properties *)

(** ** The adapter *)

Lemma members_join id room rooms room' :
  Adapter.members (Adapter.join id room rooms) room' =
  if decide (room = room') then {[id]} ∪ Adapter.members rooms room
  else Adapter.members rooms room'.
Proof.
  unfold Adapter.join, Adapter.members at 1.
  rewrite lookup_insert. destruct (decide (room = room')); reflexivity.
Qed.

Lemma members_join_eq id room rooms :
  Adapter.members (Adapter.join id room rooms) room = {[id]} ∪ Adapter.members rooms room.
Proof. rewrite members_join. destruct (decide (room = room)); congruence. Qed.

Lemma members_join_ne id room rooms room' :
  room ≠ room' →
  Adapter.members (Adapter.join id room rooms) room' = Adapter.members rooms room'.
Proof. intros Hne. rewrite members_join. destruct (decide (room = room')); congruence. Qed.

Lemma members_leave_all id rooms room :
  Adapter.members (Adapter.leave_all id rooms) room = Adapter.members rooms room ∖ {[id]}.
Proof.
  unfold Adapter.leave_all, Adapter.members.
  rewrite lookup_omap. destruct (rooms !! room) as [m|]; simpl.
  - destruct (decide (m ∖ {[id]} = ∅)) as [E|E]; simpl; [by rewrite E | done].
  - set_solver.
Qed.

Lemma except_sids_one rooms s :
  Adapter.except_sids rooms [s] = Adapter.members rooms s.
Proof. unfold Adapter.except_sids. simpl. set_solver. Qed.

Lemma to_everyone rooms room :
  Adapter.to rooms room [] = Adapter.members rooms room.
Proof. unfold Adapter.to, Adapter.except_sids. simpl. set_solver. Qed.

Lemma received_nil s : received s [] = [].
Proof. reflexivity. Qed.

Lemma received_cons s e out :
  received s (e :: out) =
  if decide (s ∈ recipients e) then payload e :: received s out else received s out.
Proof.
  unfold received. rewrite filter_cons.
  by destruct (decide (s ∈ recipients e)).
Qed.

(** ** The chat namespace *)

Lemma chat_handle_own_room st ev st' out :
  Chat.own_room st → Chat.handle st ev = Some (Done (st', out)) → Chat.own_room st'.
Proof.
  intros Hown Hstep s Hs. destruct ev as [t|t n|t r|t arg|t r|t]; simpl in Hstep.
  - destruct (Chat.sockets st !! t) eqn:Ht; [done|]. simplify_eq. simpl in *.
    rewrite members_join. destruct (decide (t = s)) as [->|Hne]; [set_solver|].
    rewrite lookup_insert_ne in Hs by done. by apply Hown.
  - destruct (Chat.sockets st !! t) eqn:Ht; simplify_eq/=.
    apply Hown. destruct (decide (t = s)) as [->|Hne]; [by rewrite Ht|].
    by rewrite lookup_insert_ne in Hs.
  - destruct (Chat.sockets st !! t) eqn:Ht; simplify_eq/=.
    rewrite members_join. specialize (Hown s Hs).
    destruct (decide (r = s)) as [->|Hne]; set_solver.
  - destruct (Chat.sockets st !! t) eqn:Ht; simplify_eq/=.
    destruct arg; simplify_eq/=. by apply Hown.
  - destruct (Chat.sockets st !! t) eqn:Ht; simplify_eq/=.
    rewrite members_join. specialize (Hown s Hs).
    destruct (decide (r = s)) as [->|Hne]; set_solver.
  - destruct (Chat.sockets st !! t) eqn:Ht; simplify_eq/=.
    rewrite members_leave_all.
    destruct (decide (t = s)) as [->|Hne]; [by rewrite lookup_delete_eq in Hs; destruct Hs|].
    rewrite lookup_delete_ne in Hs by done. specialize (Hown s Hs). set_solver.
Qed.

Lemma chat_reachable_own_room st : Chat.reachable st → Chat.own_room st.
Proof.
  induction 1 as [|st ev st' out _ IH Hstep].
  - intros s [ud Hs]. simpl in Hs. by rewrite lookup_empty in Hs.
  - eauto using chat_handle_own_room.
Qed.

Lemma chat_run_reachable evs : ∀ st st',
  Chat.reachable st → Chat.run st evs = Some st' → Chat.reachable st'.
Proof.
  induction evs as [|ev evs IH]; intros st st' Hst Hrun; simpl in Hrun.
  - by simplify_eq.
  - destruct (Chat.handle st ev) as [[[st1 out]| |]|] eqn:Hstep; try done.
    eapply IH; [|exact Hrun]. by eapply Chat.reachable_step.
Qed.





(** joinVoiceRoom in full (C6).  It fires exactly two emissions, in this
    order: newVoicePeer with the joiner's id to the sockets of the named
    room that are not in the room named by the joiner's id, then
    existingVoicePeers to the joiner alone, listing every other member of
    the named room at that instant.  When the joiner's own room holds the
    joiner alone the first goes to every other member of the named room;
    joining an otherwise empty room notifies nobody and lists nobody. *)
Theorem joinVoiceRoom_emissions st s roomCode :
  Chat.reachable st → is_Some (Chat.sockets st !! s) →
  ∃ st' told peers,
    Chat.handle st (Chat.on_joinVoiceRoom s roomCode)
      = Some (Done (st', [Emit told (newVoicePeer s);
                          Emit {[ s ]} (existingVoicePeers peers)])) ∧
    Adapter.members (Chat.rooms st') roomCode
      = {[ s ]} ∪ Adapter.members (Chat.rooms st) roomCode ∧
    told = Adapter.members (Chat.rooms st') roomCode ∖ Adapter.members (Chat.rooms st') s ∧
    peers = Adapter.members (Chat.rooms st') roomCode ∖ {[ s ]} ∧
    (Adapter.members (Chat.rooms st) s = {[ s ]} → told = peers) ∧
    (Adapter.members (Chat.rooms st) roomCode ⊆ {[ s ]} → told = ∅ ∧ peers = ∅).
Proof.
  intros Hreach Hs.
  pose proof (chat_reachable_own_room st Hreach s Hs) as Hown.
  destruct Hs as [ud Hs].
  exists {| Chat.sockets := Chat.sockets st;
            Chat.rooms := Adapter.join s roomCode (Chat.rooms st) |}.
  eexists _, _. split; [|split; [|split; [reflexivity|split; [reflexivity|]]]].
  - simpl. rewrite Hs. simpl. unfold Chat.joinVoiceRoom, Adapter.to.
    rewrite except_sids_one. reflexivity.
  - simpl. apply members_join_eq.
  - simpl. rewrite !members_join. split.
    + intros Honly. destruct (decide (roomCode = s)) as [->|Hne].
      * rewrite decide_True by done. set_solver.
      * rewrite decide_True by done. rewrite Honly. set_solver.
    + intros Hsub. rewrite decide_True by done.
      destruct (decide (roomCode = s)) as [->|Hne]; set_solver.
Qed.

(** C6, a run: a sits alone in voice room R, b joins; a is told of b and b
    is sent the peer list {a}. *)
Lemma joinVoiceRoom_emissions_witness :
  let a := "AAAAAAAAAAAAAAAAAAAA" in
  let b := "BBBBBBBBBBBBBBBBBBBB" in
  let st := {| Chat.sockets := {[ a := {| Chat.name := "" |}; b := {| Chat.name := "" |} ]};
               Chat.rooms := {[ a := {[ a ]}; b := {[ b ]}; "R" := {[ a ]} ]} |} in
  Chat.run Chat.init
    [Chat.on_connection a; Chat.on_joinVoiceRoom a "R"; Chat.on_connection b] = Some st ∧
  ∃ st',
    Chat.handle st (Chat.on_joinVoiceRoom b "R")
      = Some (Done (st', [Emit {[ a ]} (newVoicePeer b);
                          Emit {[ b ]} (existingVoicePeers {[ a ]})])).
Proof.
  intros a b st.
  assert (Hrun : Chat.run Chat.init
    [Chat.on_connection a; Chat.on_joinVoiceRoom a "R"; Chat.on_connection b] = Some st)
    by (vm_compute; reflexivity).
  split; [exact Hrun|].
  destruct (joinVoiceRoom_emissions st b "R")
    as (st' & told & peers & Hh & Hmem & Htold & Hpeers & Honly & _).
  - exact (chat_run_reachable _ _ _ Chat.reachable_init Hrun).
  - eexists. vm_compute. reflexivity.
  - exists st'. rewrite Hh.
    assert (Hp : peers = {[ a ]}).
    { rewrite Hpeers, Hmem. vm_compute. reflexivity. }
    rewrite (Honly ltac:(vm_compute; reflexivity)), Hp. reflexivity.
Defined.

(** C6, counterexample.  Socket b has joined the room named by a's id (a
    room name like any other for generateCode) and the voice room R; when
    a joins R, b is a member of R other than the joiner and yet is not
    told of the new peer. *)
Lemma joinVoiceRoom_misses_a_member :
  let a := "AAAAAAAAAAAAAAAAAAAA" in
  let b := "BBBBBBBBBBBBBBBBBBBB" in
  let st := {| Chat.sockets := {[ a := {| Chat.name := "" |}; b := {| Chat.name := "" |} ]};
               Chat.rooms := {[ a := {[ a; b ]}; b := {[ b ]}; "R" := {[ b ]} ]} |} in
  Chat.run Chat.init
    [Chat.on_connection a; Chat.on_connection b;
     Chat.on_generateCode b a; Chat.on_joinVoiceRoom b "R"] = Some st ∧
  ¬ Chat.joinVoiceRoom_tells_every_member st a "R".
Proof.
  intros a b st. split; [vm_compute; reflexivity|]. intros H.
  specialize (H (Chat.joinVoiceRoom st a "R").1 (Chat.joinVoiceRoom st a "R").2 b).
  assert (Hnone : received b (Chat.joinVoiceRoom st a "R").2 = [])
    by (vm_compute; reflexivity).
  rewrite Hnone in H. eapply not_elem_of_nil, H.
  - vm_compute; reflexivity.
  - apply (bool_decide_unpack _); vm_compute; exact I.
  - discriminate.
Qed.

(** C6, at the failing input.  Socket b has joined the room named by a's
    id and the voice room R; a then joins R.  The handler's comment reads
    "Tell all in the room about this new peer", yet newVoicePeer goes to
    nobody: b, a member of R, is not told of a, while the peer list sent to
    a does name b. *)
Theorem joinVoiceRoom_skips_a_listed_peer :
  let a := "AAAAAAAAAAAAAAAAAAAA" in
  let b := "BBBBBBBBBBBBBBBBBBBB" in
  let st := {| Chat.sockets := {[ a := {| Chat.name := "" |}; b := {| Chat.name := "" |} ]};
               Chat.rooms := {[ a := {[ a; b ]}; b := {[ b ]}; "R" := {[ b ]} ]} |} in
  Chat.run Chat.init
    [Chat.on_connection a; Chat.on_connection b;
     Chat.on_generateCode b a; Chat.on_joinVoiceRoom b "R"] = Some st ∧
  ∃ st',
    Chat.handle st (Chat.on_joinVoiceRoom a "R")
    = Some (Done (st', [Emit ∅ (newVoicePeer a);
                        Emit {[ a ]} (existingVoicePeers {[ b ]})])) ∧
    Adapter.members (Chat.rooms st') "R" = {[ a; b ]} ∧
    received b [Emit ∅ (newVoicePeer a); Emit {[ a ]} (existingVoicePeers {[ b ]})] = [].
Proof.
  intros a b st. split; [vm_compute; reflexivity|].
  exists (Chat.joinVoiceRoom st a "R").1.
  split; [vm_compute; reflexivity|]. split; vm_compute; reflexivity.
Qed.

(** sendMessage without its argument is the only event of the chat
    namespace that throws. *)
Lemma chat_handle_throws st ev :
  Chat.handle st ev = Some Throws → ∃ s, ev = Chat.on_sendMessage s Chat.no_argument.
Proof.
  destruct ev as [t|t n|t r|t arg|t r|t]; simpl;
    destruct (Chat.sockets st !! t); simpl; try done.
  destruct arg; [eauto|done].
Qed.

(** C9, at the failing input.  A sendMessage event that carries no
    argument makes the handler throw while it destructures its parameter,
    whatever the state. *)
Theorem sendMessage_without_argument_throws st s :
  is_Some (Chat.sockets st !! s) →
  Chat.handle st (Chat.on_sendMessage s Chat.no_argument) = Some Throws.
Proof. intros [ud Hs]. simpl. by rewrite Hs. Qed.

(** C9, a run: a freshly connected chat socket sends sendMessage with no
    argument. *)
Lemma sendMessage_without_argument_throws_witness :
  let a := "AAAAAAAAAAAAAAAAAAAA" in
  ∃ st, Chat.reachable st ∧ Chat.handle Chat.init (Chat.on_connection a) = Some (Done (st, [])) ∧
        Chat.handle st (Chat.on_sendMessage a Chat.no_argument) = Some Throws.
Proof.
  intros a. exists (Chat.connection Chat.init a). split; [|split].
  - apply (Chat.reachable_step Chat.init (Chat.on_connection a) _ []);
      [apply Chat.reachable_init | reflexivity].
  - reflexivity.
  - apply sendMessage_without_argument_throws. eexists. vm_compute. reflexivity.
Defined.

(** ** The update namespace *)

Section UpdateProperties.

Variable random : nat → nat.
Variable alphabet_first : Ascii.ascii.
Variable alphabet_rest : list Ascii.ascii.

Abbreviation generateRoomCode := (Update.generateRoomCode random alphabet_first alphabet_rest).
Abbreviation retry := (Update.retry random alphabet_first alphabet_rest).
Abbreviation createRoom := (Update.createRoom random alphabet_first alphabet_rest).
Abbreviation handle := (Update.handle random alphabet_first alphabet_rest).
Abbreviation reachable := (Update.reachable random alphabet_first alphabet_rest).
Abbreviation candidate := (Update.candidate random alphabet_first alphabet_rest).

Lemma generateRoomCode_length len : ∀ cur,
  String.length (generateRoomCode len cur).1 = len.
Proof.
  induction len as [|n IH]; intros cur; simpl; [reflexivity|].
  specialize (IH (S cur)).
  destruct (generateRoomCode n (S cur)) as [rest cur']. simpl in *. by rewrite IH.
Qed.

Lemma generateRoomCode_cursor len : ∀ cur,
  (generateRoomCode len cur).2 = cur + len.
Proof.
  induction len as [|n IH]; intros cur; simpl; [lia|].
  specialize (IH (S cur)).
  destruct (generateRoomCode n (S cur)) as [rest cur']. simpl in *. lia.
Qed.

Lemma retry_fresh fuel reg : ∀ c cur c' cur',
  retry fuel reg c cur = Some (c', cur') →
  reg !! c' = None ∧
  (String.length c = Update.ROOM_CODE_LENGTH → String.length c' = Update.ROOM_CODE_LENGTH).
Proof.
  induction fuel as [|fuel IH]; intros c cur c' cur' Hr; simpl in Hr.
  - destruct (reg !! c) eqn:Hc; [done|]. by simplify_eq.
  - destruct (reg !! c) eqn:Hc; [|by simplify_eq].
    pose proof (generateRoomCode_length Update.ROOM_CODE_LENGTH cur) as Hlen.
    destruct (generateRoomCode Update.ROOM_CODE_LENGTH cur) as [c1 cur1].
    apply IH in Hr as [Hfresh Hl]. split; [done|]. intros _. by apply Hl.
Qed.

Lemma retry_unfold fuel reg c cur :
  retry (S fuel) reg c cur =
  match reg !! c with
  | None => Some (c, cur)
  | Some _ =>
      retry fuel reg (generateRoomCode Update.ROOM_CODE_LENGTH cur).1
            (cur + Update.ROOM_CODE_LENGTH)
  end.
Proof.
  change (retry (S fuel) reg c cur) with
    (match reg !! c with
     | None => Some (c, cur)
     | Some _ =>
         let '(c', cur') := generateRoomCode Update.ROOM_CODE_LENGTH cur in
         retry fuel reg c' cur'
     end).
  destruct (reg !! c); [|reflexivity].
  rewrite <- (generateRoomCode_cursor Update.ROOM_CODE_LENGTH cur).
  by destruct (generateRoomCode Update.ROOM_CODE_LENGTH cur).
Qed.

(** The loop stops at the first candidate that is not a key of the
    registry, provided the budget of iterations reaches it. *)
Lemma retry_first_fresh reg cur0 n : ∀ fuel k,
  (∀ i, i < n → is_Some (reg !! candidate cur0 (k + i))) →
  reg !! candidate cur0 (k + n) = None →
  n ≤ fuel →
  retry fuel reg (candidate cur0 k) (cur0 + Update.ROOM_CODE_LENGTH * S k)
  = Some (candidate cur0 (k + n), cur0 + Update.ROOM_CODE_LENGTH * S (k + n)).
Proof.
  induction n as [|n IH]; intros fuel k Htaken Hfresh Hfuel.
  - replace (k + 0) with k in * by lia.
    destruct fuel; [simpl|rewrite retry_unfold]; by rewrite Hfresh.
  - destruct fuel as [|fuel]; [lia|]. rewrite retry_unfold.
    destruct (Htaken 0 ltac:(lia)) as [r Hr].
    replace (k + 0) with k in Hr by lia. rewrite Hr.
    replace (cur0 + Update.ROOM_CODE_LENGTH * S k + Update.ROOM_CODE_LENGTH)
      with (cur0 + Update.ROOM_CODE_LENGTH * S (S k)) by lia.
    change (generateRoomCode Update.ROOM_CODE_LENGTH
              (cur0 + Update.ROOM_CODE_LENGTH * S k)).1 with (candidate cur0 (S k)).
    replace (k + S n) with (S k + n) in * by lia.
    apply IH; [|done|lia].
    intros i Hi. replace (S k + i) with (k + S i) by lia. apply Htaken. lia.
Qed.

Lemma createRoom_done fuel st s ud st' out :
  createRoom fuel st s ud = Done (st', out) →
  ∃ c cur,
    retry fuel (Update.gameRooms st) (candidate (Update.cursor st) 0)
          (Update.cursor st + Update.ROOM_CODE_LENGTH) = Some (c, cur) ∧
    Update.gameRooms st !! c = None ∧
    String.length c = Update.ROOM_CODE_LENGTH ∧
    st' = {| Update.gameRooms :=
               <[c := Update.addPlayer s (Update.new_GameRoom c)]> (Update.gameRooms st);
             Update.sockets :=
               <[s := {| Update.name := Update.name ud; Update.roomCode := c |}]>
                 (Update.sockets st);
             Update.rooms := Adapter.join s c (Update.rooms st);
             Update.issued := Update.issued st;
             Update.cursor := cur |} ∧
    out = [Emit {[ s ]} (generateCode c)].
Proof.
  unfold Update.createRoom, Update.candidate.
  replace (Update.cursor st + Update.ROOM_CODE_LENGTH * 0) with (Update.cursor st) by lia.
  pose proof (generateRoomCode_length Update.ROOM_CODE_LENGTH (Update.cursor st)) as Hlen.
  pose proof (generateRoomCode_cursor Update.ROOM_CODE_LENGTH (Update.cursor st)) as Hcur.
  destruct (generateRoomCode Update.ROOM_CODE_LENGTH (Update.cursor st)) as [c0 cur0].
  simpl in Hlen, Hcur. subst cur0.
  destruct (retry fuel (Update.gameRooms st) c0 _) as [[c cur]|] eqn:Hr; [|done].
  intros [= <- <-]. exists c, cur.
  apply retry_fresh in Hr as Hf. destruct Hf as [Hfresh Hl]. auto.
Qed.

(** *** The invariant *)

Lemma code_is_no_socket_id (c s : string) :
  String.length c = Update.ROOM_CODE_LENGTH → String.length s = 20 → c ≠ s.
Proof. intros Hc Hs ->. unfold Update.ROOM_CODE_LENGTH in Hc. lia. Qed.

Lemma inv_init : Update.inv Update.init.
Proof.
  split; simpl.
  - intros c room Hc. by rewrite lookup_empty in Hc.
  - intros s ud Hs. by rewrite lookup_empty in Hs.
  - intros x _. unfold Adapter.members. rewrite lookup_empty. set_solver.
Qed.

Lemma connection_inv st s :
  Update.inv st → String.length s = 20 → s ∉ Update.issued st →
  Update.inv (Update.connection random st s).
Proof.
  intros [Hcodes Hsock Hrooms] Hlen Hnew. split; simpl.
  - intros c room Hc. destruct (Hcodes c room Hc) as (Hl & Hne & Hiss & Hmem).
    repeat split; [done|done|set_solver|].
    rewrite members_join_ne by (symmetry; by eapply code_is_no_socket_id).
    rewrite Hmem, dom_insert_L. set_solver.
  - intros s' ud'. rewrite lookup_insert. destruct (decide (s = s')) as [<-|Hne].
    + intros [= <-]. simpl. repeat split; [done|set_solver|done].
    + intros Hs'. destruct (Hsock s' ud' Hs') as (? & ? & ?).
      repeat split; [done|set_solver|done].
  - intros x Hx. rewrite members_join, dom_insert_L.
    specialize (Hrooms x Hx). destruct (decide (s = x)) as [->|Hne]; set_solver.
Qed.

Lemma setName_inv st s ud n :
  Update.inv st → Update.sockets st !! s = Some ud →
  Update.inv (Update.setName st s ud n).
Proof.
  intros [Hcodes Hsock Hrooms] Hs.
  assert (Hdom : dom (<[s := {| Update.name := n; Update.roomCode := Update.roomCode ud |}]>
                        (Update.sockets st)) = dom (Update.sockets st)).
  { rewrite dom_insert_L. apply elem_of_dom_2 in Hs. set_solver. }
  split; simpl; rewrite ?Hdom; [done| |done].
  intros s' ud'. rewrite lookup_insert. destruct (decide (s = s')) as [<-|Hne]; [|by auto].
  intros [= <-]. simpl. by apply Hsock.
Qed.

Lemma joinRoom_inv st s ud c :
  Update.inv st → Update.sockets st !! s = Some ud →
  Update.inv (Update.joinRoom st s ud c).1.
Proof.
  intros Hinv Hs. unfold Update.joinRoom.
  destruct (Update.gameRooms st !! c) as [room|] eqn:Hc; [|done].
  destruct Hinv as [Hcodes Hsock Hrooms].
  destruct (Hcodes c room Hc) as (Hl & Hne & Hiss & Hmem).
  destruct (Hsock s ud Hs) as (Hsl & Hsi & Hsr).
  assert (Hdom : dom (<[s := {| Update.name := Update.name ud; Update.roomCode := c |}]>
                        (Update.sockets st)) = dom (Update.sockets st)).
  { rewrite dom_insert_L. apply elem_of_dom_2 in Hs. set_solver. }
  apply elem_of_dom_2 in Hs as Hsd.
  split; simpl; rewrite ?Hdom.
  - intros c' room'. rewrite lookup_insert. destruct (decide (c = c')) as [<-|Hcc].
    + intros [= <-]. simpl. rewrite members_join_eq, Hmem. set_solver.
    + intros Hc'. rewrite members_join_ne by done. by apply Hcodes.
  - intros s' ud'. rewrite lookup_insert. destruct (decide (s = s')) as [<-|Hss].
    + intros [= <-]. simpl. repeat split; [done|done|]. intros _.
      exists (Update.addPlayer s room). rewrite lookup_insert_eq. simpl. set_solver.
    + intros Hs'. destruct (Hsock s' ud' Hs') as (? & ? & Hr).
      repeat split; [done|done|]. intros Hn. destruct (Hr Hn) as (r & Hrr & Hin).
      rewrite lookup_insert. destruct (decide (c = Update.roomCode ud')) as [E|].
      * rewrite <- E in Hrr. simplify_eq. eexists; split; [done|]. simpl. set_solver.
      * eauto.
  - intros x. rewrite lookup_insert. destruct (decide (c = x)) as [<-|Hcx]; [done|].
    intros Hx. rewrite members_join_ne by done. by apply Hrooms.
Qed.

Lemma createRoom_inv fuel st s ud st' out :
  Update.inv st → Update.sockets st !! s = Some ud →
  createRoom fuel st s ud = Done (st', out) → Update.inv st'.
Proof.
  intros [Hcodes Hsock Hrooms] Hs Hdone.
  apply createRoom_done in Hdone as (c & cur & _ & Hfresh & Hl & -> & _).
  destruct (Hsock s ud Hs) as (Hsl & Hsi & Hsr).
  assert (Hdom : dom (<[s := {| Update.name := Update.name ud; Update.roomCode := c |}]>
                        (Update.sockets st)) = dom (Update.sockets st)).
  { rewrite dom_insert_L. apply elem_of_dom_2 in Hs. set_solver. }
  apply elem_of_dom_2 in Hs as Hsd.
  assert (Hempty : Adapter.members (Update.rooms st) c = ∅).
  { apply set_eq. intros t. split; [|set_solver]. intros Ht.
    apply (Hrooms c Hfresh) in Ht. apply elem_of_intersection in Ht as [Htc Htd].
    apply elem_of_singleton in Htc as ->. apply elem_of_dom in Htd as [ud' Hud'].
    destruct (Hsock c ud' Hud') as (Hcl & _). unfold Update.ROOM_CODE_LENGTH in Hl. lia. }
  split; simpl; rewrite ?Hdom.
  - intros c' room'. rewrite lookup_insert. destruct (decide (c = c')) as [<-|Hcc].
    + intros [= <-]. simpl. rewrite members_join_eq, Hempty. set_solver.
    + intros Hc'. rewrite members_join_ne by done. by apply Hcodes.
  - intros s' ud'. rewrite lookup_insert. destruct (decide (s = s')) as [<-|Hss].
    + intros [= <-]. simpl. repeat split; [done|done|]. intros _.
      eexists. rewrite lookup_insert_eq. split; [done|]. simpl. set_solver.
    + intros Hs'. destruct (Hsock s' ud' Hs') as (? & ? & Hr).
      repeat split; [done|done|]. intros Hn. destruct (Hr Hn) as (r & Hrr & Hin).
      rewrite lookup_insert. destruct (decide (c = Update.roomCode ud')) as [E|].
      * congruence.
      * eauto.
  - intros x. rewrite lookup_insert. destruct (decide (c = x)) as [<-|Hcx]; [done|].
    intros Hx. rewrite members_join_ne by done. by apply Hrooms.
Qed.

Lemma updateWishlist_inv st s ud items :
  Update.inv st → Update.inv (Update.updateWishlist st s ud items).1.
Proof.
  intros Hinv. unfold Update.updateWishlist.
  destruct (decide (Update.roomCode ud = "")); [done|].
  destruct (Update.gameRooms st !! Update.roomCode ud) as [room|] eqn:Hc; [|done].
  destruct Hinv as [Hcodes Hsock Hrooms]. split; simpl.
  - intros c' room'. rewrite lookup_insert.
    destruct (decide (Update.roomCode ud = c')) as [<-|Hcc]; [|by apply Hcodes].
    intros [= <-]. simpl. by apply Hcodes.
  - intros s' ud' Hs'. destruct (Hsock s' ud' Hs') as (? & ? & Hr).
    repeat split; [done|done|]. intros Hn. destruct (Hr Hn) as (r & Hrr & Hin).
    rewrite lookup_insert. destruct (decide (Update.roomCode ud = Update.roomCode ud')) as [E|].
    + rewrite E in Hc. simplify_eq. eexists; split; [done|]. done.
    + eauto.
  - intros x. rewrite lookup_insert.
    destruct (decide (Update.roomCode ud = x)) as [<-|Hcx]; [done|]. by apply Hrooms.
Qed.

Lemma close_inv st s ud st' out :
  Update.inv st → Update.sockets st !! s = Some ud →
  Update.close st s ud = Done (st', out) → Update.inv st'.
Proof.
  intros [Hcodes Hsock Hrooms] Hs. unfold Update.close, Update.disconnecting.
  assert (Hother : ∀ s' ud', delete s (Update.sockets st) !! s' = Some ud' →
                     s' ≠ s ∧ Update.sockets st !! s' = Some ud').
  { intros s' ud'. rewrite lookup_delete. destruct (decide (s = s')); [done|]. auto. }
  destruct (decide (Update.roomCode ud = "")) as [Hrc|Hrc].
  { intros [= <- <-]. split; simpl.
    - intros c room Hc. destruct (Hcodes c room Hc) as (? & ? & ? & Hmem).
      repeat split; [done|done|done|].
      rewrite members_leave_all, Hmem, dom_delete_L. set_solver.
    - intros s' ud' Hs'. apply Hother in Hs' as [_ Hs']. by apply Hsock.
    - intros x Hx. rewrite members_leave_all, dom_delete_L.
      specialize (Hrooms x Hx). set_solver. }
  destruct (Update.gameRooms st !! Update.roomCode ud) as [room|] eqn:Hroom; [|done].
  destruct (Hcodes _ room Hroom) as (Hl & Hne & Hiss & Hmem).
  destruct (decide (Update.numPlayers (Update.removePlayer s room) = 0)) as [Hz|Hnz];
    [unfold Update.numPlayers in Hz; simpl in Hz; apply size_empty_inv in Hz|];
    intros [= <- <-]; split; simpl.
  - intros c room'. rewrite lookup_delete.
    destruct (decide (Update.roomCode ud = c)); [done|]. intros Hc.
    destruct (Hcodes c room' Hc) as (? & ? & ? & Hmem').
    repeat split; [done|done|done|].
    rewrite members_leave_all, Hmem', dom_delete_L. set_solver.
  - intros s' ud' Hs'. apply Hother in Hs' as [Hss Hs'].
    destruct (Hsock s' ud' Hs') as (? & ? & Hr). repeat split; [done|done|].
    intros Hn. destruct (Hr Hn) as (r & Hrr & Hin).
    rewrite lookup_delete. destruct (decide (Update.roomCode ud = Update.roomCode ud')) as [E|].
    + rewrite <- E in Hrr. simplify_eq. exfalso. set_solver.
    + eauto.
  - intros x. rewrite lookup_delete, members_leave_all, dom_delete_L.
    destruct (decide (Update.roomCode ud = x)) as [<-|].
    + intros _. rewrite Hmem. set_solver.
    + intros Hx. specialize (Hrooms x Hx). set_solver.
  - intros c room'. rewrite lookup_insert.
    destruct (decide (Update.roomCode ud = c)) as [<-|].
    + intros [= <-]. simpl. repeat split; [done| |set_solver|].
      * intros E. apply Hnz. unfold Update.numPlayers. simpl. by rewrite E, size_empty.
      * rewrite members_leave_all, Hmem, dom_delete_L. set_solver.
    + intros Hc. destruct (Hcodes c room' Hc) as (? & ? & ? & Hmem').
      repeat split; [done|done|done|].
      rewrite members_leave_all, Hmem', dom_delete_L. set_solver.
  - intros s' ud' Hs'. apply Hother in Hs' as [Hss Hs'].
    destruct (Hsock s' ud' Hs') as (? & ? & Hr). repeat split; [done|done|].
    intros Hn. destruct (Hr Hn) as (r & Hrr & Hin).
    rewrite lookup_insert. destruct (decide (Update.roomCode ud = Update.roomCode ud')) as [E|].
    + rewrite <- E in Hrr. simplify_eq. eexists; split; [done|]. simpl. set_solver.
    + eauto.
  - intros x. rewrite lookup_insert, members_leave_all, dom_delete_L.
    destruct (decide (Update.roomCode ud = x)) as [<-|]; [done|].
    intros Hx. specialize (Hrooms x Hx). set_solver.
Qed.

Lemma handle_inv fuel st ev st' out :
  Update.inv st → handle fuel st ev = Some (Done (st', out)) → Update.inv st'.
Proof.
  intros Hinv Hstep. destruct ev as [s|s|s n|s c|s|s items|s]; simpl in Hstep.
  - destruct (decide _) as [[Hlen Hnew]|]; [|done]. simplify_eq.
    by apply connection_inv.
  - destruct (Update.sockets st !! s) as [ud|] eqn:Hs; simplify_eq/=. done.
  - destruct (Update.sockets st !! s) as [ud|] eqn:Hs; simplify_eq/=.
    by apply setName_inv.
  - destruct (Update.sockets st !! s) as [ud|] eqn:Hs; [|done]. simpl in Hstep.
    injection Hstep as Hstep.
    pose proof (joinRoom_inv st s ud c Hinv Hs) as H. by rewrite Hstep in H.
  - destruct (Update.sockets st !! s) as [ud|] eqn:Hs; [|done]. simpl in Hstep.
    injection Hstep as Hstep. by eapply createRoom_inv.
  - destruct (Update.sockets st !! s) as [ud|] eqn:Hs; [|done]. simpl in Hstep.
    injection Hstep as Hstep.
    pose proof (updateWishlist_inv st s ud items Hinv) as H. by rewrite Hstep in H.
  - destruct (Update.sockets st !! s) as [ud|] eqn:Hs; [|done]. simpl in Hstep.
    injection Hstep as Hstep. by eapply close_inv.
Qed.

Lemma reachable_inv st : reachable st → Update.inv st.
Proof.
  induction 1 as [|st fuel ev st' out _ IH Hstep]; [apply inv_init|].
  by eapply handle_inv.
Qed.

Lemma run_reachable fuel evs : ∀ st st',
  reachable st → Update.run random alphabet_first alphabet_rest fuel st evs = Some st' →
  reachable st'.
Proof.
  induction evs as [|ev evs IH]; intros st st' Hst Hrun; simpl in Hrun.
  - by simplify_eq.
  - destruct (handle fuel st ev) as [[[st1 out]| |]|] eqn:Hstep; try done.
    eapply IH; [|exact Hrun]. by eapply Update.reachable_step.
Qed.

(** *** Handlers on reachable states *)

Lemma code_not_empty (c : string) : String.length c = Update.ROOM_CODE_LENGTH → c ≠ "".
Proof. by intros Hl ->. Qed.

Lemma affiliation_InRoom ud c :
  Update.affiliation_of ud = Update.InRoom c ↔ Update.roomCode ud = c ∧ c ≠ "".
Proof.
  unfold Update.affiliation_of. destruct (decide (Update.roomCode ud = "")) as [E|E].
  - split; [done|]. intros [<- ?]. done.
  - split; [intros [= <-]; done|]. by intros [-> _].
Qed.

Lemma affiliation_Unaffiliated ud :
  Update.affiliation_of ud = Update.Unaffiliated ↔ Update.roomCode ud = "".
Proof.
  unfold Update.affiliation_of. by destruct (decide (Update.roomCode ud = "")).
Qed.

(** A session that stores a code stores the code of a room of the
    registry, of which it is a member. *)
Lemma session_room st s ud :
  reachable st → Update.sockets st !! s = Some ud → Update.roomCode ud ≠ "" →
  ∃ room, Update.gameRooms st !! Update.roomCode ud = Some room ∧ s ∈ Update.players room.
Proof.
  intros Hreach Hs Hrc. destruct (reachable_inv st Hreach) as [_ Hsock _].
  by apply (Hsock s ud Hs).
Qed.

(** No handler of the update namespace throws on a reachable state. *)
Lemma update_handle_never_throws fuel st ev :
  reachable st → handle fuel st ev ≠ Some Throws.
Proof.
  intros Hreach. destruct ev as [s|s|s n|s c|s|s items|s]; simpl.
  - by destruct (decide _).
  - by destruct (Update.sockets st !! s).
  - by destruct (Update.sockets st !! s).
  - by destruct (Update.sockets st !! s).
  - destruct (Update.sockets st !! s) as [ud|]; [|done]. simpl.
    unfold Update.createRoom.
    destruct (generateRoomCode Update.ROOM_CODE_LENGTH (Update.cursor st)) as [c0 cur0].
    by destruct (retry fuel (Update.gameRooms st) c0 cur0) as [[c cur]|].
  - by destruct (Update.sockets st !! s).
  - destruct (Update.sockets st !! s) as [ud|] eqn:Hs; [|done]. simpl.
    unfold Update.close, Update.disconnecting.
    destruct (decide (Update.roomCode ud = "")) as [|Hrc]; [done|].
    destruct (session_room st s ud Hreach Hs Hrc) as (room & -> & _).
    by destruct (decide _).
Qed.

Abbreviation createRooms := (Update.createRooms random alphabet_first alphabet_rest).

Lemma createRoom_returns fuel st s ud n :
  (∀ i, i < n → is_Some (Update.gameRooms st !! candidate (Update.cursor st) i)) →
  Update.gameRooms st !! candidate (Update.cursor st) n = None →
  n ≤ fuel →
  ∃ st', createRoom fuel st s ud
         = Done (st', [Emit {[ s ]} (generateCode (candidate (Update.cursor st) n))]).
Proof.
  intros Htaken Hfresh Hfuel.
  pose proof (retry_first_fresh (Update.gameRooms st) (Update.cursor st) n fuel 0
                Htaken Hfresh Hfuel) as Hr.
  unfold Update.createRoom.
  pose proof (generateRoomCode_cursor Update.ROOM_CODE_LENGTH (Update.cursor st)) as Hcur.
  assert (Hc0 : (generateRoomCode Update.ROOM_CODE_LENGTH (Update.cursor st)).1
                = candidate (Update.cursor st) 0).
  { unfold Update.candidate. f_equal. f_equal. lia. }
  destruct (generateRoomCode Update.ROOM_CODE_LENGTH (Update.cursor st)) as [c0 cur0].
  simpl in Hcur, Hc0. subst c0 cur0.
  replace (Update.cursor st + Update.ROOM_CODE_LENGTH * 1)
    with (Update.cursor st + Update.ROOM_CODE_LENGTH) in Hr by lia.
  rewrite Hr. eauto.
Qed.

Lemma createRooms_spec fuel ss : ∀ st st' cs,
  createRooms fuel st ss = Some (st', cs) →
  NoDup cs ∧
  Forall2 (λ s c, String.length c = Update.ROOM_CODE_LENGTH ∧
                  Update.gameRooms st !! c = None ∧
                  Update.gameRooms st' !! c
                  = Some (Update.addPlayer s (Update.new_GameRoom c))) ss cs ∧
  (∀ c room, Update.gameRooms st !! c = Some room → Update.gameRooms st' !! c = Some room).
Proof.
  induction ss as [|s ss IH]; intros st st' cs Hrun; simpl in Hrun.
  - simplify_eq. split; [constructor|]. split; [constructor|done].
  - destruct (Update.sockets st !! s) as [ud|] eqn:Hs; [|done]. simpl in Hrun.
    destruct (createRoom fuel st s ud) as [[st1 out]| |] eqn:Hc; try done.
    apply createRoom_done in Hc as (c & cur & _ & Hfresh & Hl & Hst1 & ->).
    destruct (createRooms fuel st1 ss) as [[st2 cs']|] eqn:Hrest; [|done].
    simplify_eq. destruct (IH _ _ _ Hrest) as (Hnd & Hall & Hframe). simpl in *.
    assert (Hc : Update.gameRooms st' !! c
                 = Some (Update.addPlayer s (Update.new_GameRoom c))).
    { apply Hframe. by rewrite lookup_insert_eq. }
    split; [|split].
    + constructor; [|done]. intros Hin.
      apply (Forall2_Forall_r _ (λ c', <[c:=Update.addPlayer s (Update.new_GameRoom c)]>
                                          (Update.gameRooms st) !! c' = None)) in Hall.
      * rewrite Forall_forall in Hall. specialize (Hall c Hin).
        by rewrite lookup_insert_eq in Hall.
      * apply Forall_true. intros s' c' (_ & Hn & _). exact Hn.
    + constructor; [done|]. eapply Forall2_impl; [exact Hall|].
      intros s' c' (Hl' & Hn & Hs'). repeat split; [done| |done].
      apply lookup_insert_None in Hn. by destruct Hn.
    + intros c' room Hc'. apply Hframe. rewrite lookup_insert.
      destruct (decide (c = c')) as [<-|]; [congruence|done].
Qed.

(** C1.  In every run of createRoom requests the codes handed out are
    pairwise distinct and have ROOM_CODE_LENGTH (6) characters each; each
    was absent from the registry when the run began and names, in the
    registry after the run, the new room with its creator as only member.
    A single createRoom goes through the candidates of the generator and
    returns the first that is not a key of the registry, as soon as the
    budget of iterations reaches it, with the new room inserted under it. *)
Theorem createRoom_codes fuel st ss :
  (∀ st' cs,
     createRooms fuel st ss = Some (st', cs) →
     NoDup cs ∧
     Forall2 (λ s c, String.length c = 6 ∧
                     Update.gameRooms st !! c = None ∧
                     Update.gameRooms st' !! c
                     = Some (Update.addPlayer s (Update.new_GameRoom c))) ss cs) ∧
  (∀ s ud n,
     Update.sockets st !! s = Some ud →
     (∀ i, i < n → is_Some (Update.gameRooms st !! candidate (Update.cursor st) i)) →
     Update.gameRooms st !! candidate (Update.cursor st) n = None →
     n ≤ fuel →
     ∃ st', handle fuel st (Update.on_createRoom s)
            = Some (Done (st', [Emit {[ s ]} (generateCode (candidate (Update.cursor st) n))])) ∧
            Update.gameRooms st'
            = <[candidate (Update.cursor st) n :=
                  Update.addPlayer s (Update.new_GameRoom (candidate (Update.cursor st) n))]>
                (Update.gameRooms st)).
Proof.
  split.
  - intros st' cs Hrun. destruct (createRooms_spec _ _ _ _ _ Hrun) as (Hnd & Hall & _).
    split; [done|]. exact Hall.
  - intros s ud n Hs Htaken Hfresh Hfuel.
    destruct (createRoom_returns fuel st s ud n Htaken Hfresh Hfuel) as [st' Hst'].
    exists st'. split; [unfold Update.handle; rewrite Hs; simpl; by rewrite Hst'|].
    apply createRoom_done in Hst' as (c & cur & _ & _ & _ & -> & [= <-]). done.
Qed.

(** C2.  joinRoom with a code that is not a key of the registry answers
    invalidRoomCode to the caller and to nobody else, and leaves the whole
    state as it was: the registry is unchanged and so is the caller's stored
    affiliation (a session that was Unaffiliated still is), whatever the
    registry and the session were. *)
Theorem joinRoom_unknown_code fuel st s ud c :
  Update.sockets st !! s = Some ud → Update.gameRooms st !! c = None →
  ∃ st' out,
    handle fuel st (Update.on_joinRoom s c) = Some (Done (st', out)) ∧
    out = [Emit {[ s ]} (invalidRoomCode "Not a valid room code.")] ∧
    (∀ t, t ≠ s → received t out = []) ∧
    st' = st ∧
    Update.gameRooms st' = Update.gameRooms st ∧
    Update.sockets st' !! s = Some ud ∧
    (Update.affiliation_of ud = Update.Unaffiliated →
     Update.affiliation_of <$> Update.sockets st' !! s = Some Update.Unaffiliated).
Proof.
  intros Hs Hc. exists st. eexists. split.
  { unfold Update.handle. rewrite Hs. simpl. unfold Update.joinRoom. rewrite Hc. reflexivity. }
  split; [reflexivity|]. split.
  { intros t Hne. rewrite received_cons, received_nil. simpl.
    destruct (decide _) as [Hin|]; [set_solver|done]. }
  repeat split; [done|]. intros Hu. by rewrite Hs; simpl; rewrite Hu.
Qed.

(** C3.  joinRoom with a code of the registry: the session stores the code
    (it becomes InRoom of that code), the caller is added to the room and
    to its delivery group, the caller is sent generateCode with the code,
    and when the room has a wishlist, which the handler reads as a wishlist
    that is not empty, the caller is sent wishlistUpdated with it right
    after; nobody but the caller receives anything. *)
Theorem joinRoom_known_code fuel st s ud c room :
  reachable st →
  Update.sockets st !! s = Some ud → Update.gameRooms st !! c = Some room →
  ∃ st' out ud',
    handle fuel st (Update.on_joinRoom s c) = Some (Done (st', out)) ∧
    Update.sockets st' !! s = Some ud' ∧
    Update.affiliation_of ud' = Update.InRoom c ∧
    Update.gameRooms st' !! c = Some (Update.addPlayer s room) ∧
    Update.players (Update.addPlayer s room) = {[ s ]} ∪ Update.players room ∧
    s ∈ Adapter.members (Update.rooms st') c ∧
    received s out
    = generateCode c
      :: (if decide (Update.wishlist room = []) then []
          else [wishlistUpdated (Update.wishlist room)]) ∧
    (∀ t, t ≠ s → received t out = []).
Proof.
  intros Hreach Hs Hc.
  destruct (reachable_inv st Hreach) as [Hcodes _ _].
  destruct (Hcodes c room Hc) as (Hl & _).
  eexists _, _, _. split.
  { unfold Update.handle. rewrite Hs. simpl. unfold Update.joinRoom. rewrite Hc. reflexivity. }
  simpl. split; [by rewrite lookup_insert_eq|].
  split; [apply affiliation_InRoom; split; [done|by apply code_not_empty]|].
  split; [by rewrite lookup_insert_eq|]. split; [done|].
  split; [rewrite members_join_eq; set_solver|].
  split.
  - rewrite received_cons. simpl. rewrite decide_True by set_solver. f_equal.
    destruct (Update.wishlist room) as [|x l]; [done|].
    rewrite received_cons. simpl. rewrite decide_True by set_solver.
    reflexivity.
  - intros t Hne. rewrite received_cons. simpl. rewrite decide_False by set_solver.
    destruct (Update.wishlist room) as [|x l]; [done|].
    rewrite received_cons. simpl. by rewrite decide_False by set_solver.
Qed.

(** C10.  updateWishlist of a session whose stored code is not empty and
    is no key of the registry does nothing: the state is unchanged and
    nothing is emitted, to the sender or to anybody. *)
Theorem updateWishlist_dangling_code fuel st s ud items :
  Update.sockets st !! s = Some ud →
  Update.roomCode ud ≠ "" →
  Update.gameRooms st !! Update.roomCode ud = None →
  handle fuel st (Update.on_updateWishlist s items) = Some (Done (st, [])).
Proof.
  intros Hs Hrc Hnone. unfold Update.handle. rewrite Hs. simpl.
  unfold Update.updateWishlist. rewrite decide_False by done. by rewrite Hnone.
Qed.

(** An event other than an updateWishlist of a session of room [c] leaves
    the wishlist of room [c] as it is, as long as the room stays. *)
Lemma wishlist_frame fuel st ev st' out c room room' :
  handle fuel st ev = Some (Done (st', out)) →
  Update.gameRooms st !! c = Some room → Update.gameRooms st' !! c = Some room' →
  (∀ t ud items, ev = Update.on_updateWishlist t items →
                 Update.sockets st !! t = Some ud → Update.roomCode ud ≠ c) →
  Update.wishlist room' = Update.wishlist room.
Proof.
  intros Hstep Hc Hc' Hev.
  destruct ev as [s|s|s n|s c0|s|s items|s]; simpl in Hstep.
  - destruct (decide _); simplify_eq/=. congruence.
  - destruct (Update.sockets st !! s); simplify_eq/=. congruence.
  - destruct (Update.sockets st !! s); simplify_eq/=. congruence.
  - destruct (Update.sockets st !! s) as [ud|]; [|done]. simpl in Hstep.
    unfold Update.joinRoom in Hstep.
    destruct (Update.gameRooms st !! c0) as [room0|] eqn:Hc0; simplify_eq/=; [|congruence].
    rewrite lookup_insert in Hc'. destruct (decide (c0 = c)) as [->|]; simplify_eq/=; congruence.
  - destruct (Update.sockets st !! s) as [ud|]; [|done]. simpl in Hstep.
    injection Hstep as Hstep.
    apply createRoom_done in Hstep as (c1 & cur & _ & Hfresh & _ & -> & _). simpl in Hc'.
    rewrite lookup_insert in Hc'. destruct (decide (c1 = c)) as [->|]; congruence.
  - destruct (Update.sockets st !! s) as [ud|] eqn:Hs; [|done]. simpl in Hstep.
    specialize (Hev s ud items eq_refl Hs).
    unfold Update.updateWishlist in Hstep.
    destruct (decide (Update.roomCode ud = "")); simplify_eq/=; [congruence|].
    destruct (Update.gameRooms st !! Update.roomCode ud); simplify_eq/=; [|congruence].
    rewrite lookup_insert_ne in Hc' by done. congruence.
  - destruct (Update.sockets st !! s) as [ud|] eqn:Hs; [|done]. simpl in Hstep.
    unfold Update.close, Update.disconnecting in Hstep.
    destruct (decide (Update.roomCode ud = "")); simplify_eq/=; [congruence|].
    destruct (Update.gameRooms st !! Update.roomCode ud) as [room0|] eqn:Hr; [|done].
    destruct (decide _); simplify_eq/=.
    + rewrite lookup_delete in Hc'. destruct (decide (Update.roomCode ud = c)); [done|congruence].
    + rewrite lookup_insert in Hc'.
      destruct (decide (Update.roomCode ud = c)) as [E|]; simplify_eq/=; congruence.
Qed.

(** Through a run that leaves room [c] alone, the wishlist of the room is
    what it was when the run began. *)
Lemma wishlist_frame_run fuel c evs : ∀ st st' room room',
  Update.run random alphabet_first alphabet_rest fuel st evs = Some st' →
  Update.room_undisturbed random alphabet_first alphabet_rest fuel c st evs →
  Update.gameRooms st !! c = Some room → Update.gameRooms st' !! c = Some room' →
  Update.wishlist room' = Update.wishlist room.
Proof.
  induction evs as [|ev evs IH]; intros st st' room room' Hrun Hquiet Hc Hc';
    simpl in Hrun, Hquiet.
  - by simplify_eq.
  - destruct (handle fuel st ev) as [[[st1 out]| |]|] eqn:Hstep; try done.
    destruct Hquiet as (Hnw & [room1 Hc1] & Hquiet).
    rewrite (IH st1 st' room1 room' Hrun Hquiet Hc1 Hc').
    apply (wishlist_frame fuel st ev st1 out c room room1 Hstep Hc Hc1).
    intros t ud_t items' -> Ht Hrc. apply Hnw. simpl. eauto.
Qed.

(** C4.  updateWishlist of an Unaffiliated session changes nothing and
    emits nothing.  Of a session InRoom of a code, it replaces the wishlist
    of that room by the items given, and emits them once, to the connected
    members of the room, the sender among them; reading the wishlist of the
    room then returns the items, and every later read returns them too:
    after any event, and after any run of events, that does not write the
    wishlist of the room again and through which the room stays in the
    registry. *)
Theorem updateWishlist_replaces_and_fans_out fuel st s ud items :
  reachable st → Update.sockets st !! s = Some ud →
  (Update.affiliation_of ud = Update.Unaffiliated →
   handle fuel st (Update.on_updateWishlist s items) = Some (Done (st, []))) ∧
  (∀ c, Update.affiliation_of ud = Update.InRoom c →
   ∃ room st' out,
     Update.gameRooms st !! c = Some room ∧
     handle fuel st (Update.on_updateWishlist s items) = Some (Done (st', out)) ∧
     out = [Emit (Update.players room ∩ dom (Update.sockets st)) (wishlistUpdated items)] ∧
     s ∈ Update.players room ∩ dom (Update.sockets st) ∧
     (∀ t, t ∈ Update.players room → is_Some (Update.sockets st !! t) →
           received t out = [wishlistUpdated items]) ∧
     Update.gameRooms st' = <[c := Update.setWishlist items room]> (Update.gameRooms st) ∧
     Update.wishlist <$> Update.gameRooms st' !! c = Some items ∧
     Update.players <$> Update.gameRooms st' !! c = Some (Update.players room) ∧
     Update.sockets st' = Update.sockets st ∧
     (∀ fuel' ev st'' out' room',
        handle fuel' st' ev = Some (Done (st'', out')) →
        (∀ t ud_t items', ev = Update.on_updateWishlist t items' →
                          Update.sockets st' !! t = Some ud_t → Update.roomCode ud_t ≠ c) →
        Update.gameRooms st'' !! c = Some room' →
        Update.wishlist room' = items) ∧
     ∀ fuel' evs st'' room',
       Update.run random alphabet_first alphabet_rest fuel' st' evs = Some st'' →
       Update.room_undisturbed random alphabet_first alphabet_rest fuel' c st' evs →
       Update.gameRooms st'' !! c = Some room' →
       Update.wishlist room' = items).
Proof.
  intros Hreach Hs. split.
  - intros Hu. apply affiliation_Unaffiliated in Hu.
    unfold Update.handle. rewrite Hs. simpl. unfold Update.updateWishlist.
    by rewrite decide_True.
  - intros c Hin. apply affiliation_InRoom in Hin as [Hrc Hne].
    destruct (session_room st s ud Hreach Hs) as (room & Hroom & Hmem); [congruence|].
    destruct (reachable_inv st Hreach) as [Hcodes _ _].
    rewrite Hrc in Hroom.
    destruct (Hcodes c room Hroom) as (_ & _ & _ & Hgroup).
    assert (Hsin : s ∈ Update.players room ∩ dom (Update.sockets st)).
    { apply elem_of_intersection. split; [done|]. by apply elem_of_dom_2 in Hs. }
    exists room. eexists _, _. split; [done|]. split.
    { unfold Update.handle. rewrite Hs. simpl. unfold Update.updateWishlist.
      rewrite decide_False by congruence. rewrite Hrc, Hroom, to_everyone, Hgroup.
      reflexivity. }
    simpl. split; [reflexivity|]. split; [done|]. split.
    { intros t Ht Hconn. rewrite received_cons, received_nil. simpl.
      rewrite decide_True; [done|]. apply elem_of_intersection. split; [done|].
      by apply elem_of_dom. }
    split; [done|]. rewrite lookup_insert_eq. simpl.
    split; [done|]. split; [done|]. split; [done|]. split.
    + intros fuel' ev st'' out' room' Hstep Hev Hc''.
      eapply (wishlist_frame fuel' _ ev st'' out' c (Update.setWishlist items room) room')
        in Hstep; [exact Hstep| |done|exact Hev].
      simpl. by rewrite lookup_insert_eq.
    + intros fuel' evs st'' room' Hrun Hquiet Hc''.
      apply (wishlist_frame_run fuel' c evs _ st'' (Update.setWishlist items room) room'
               Hrun Hquiet); [|done].
      simpl. by rewrite lookup_insert_eq.
Qed.


(** C8, as amended.  A session begins Unaffiliated at its connection and
    ends at its own disconnect.  In between its affiliation changes only by
    its own joinRoom with a code of the registry or its own createRoom, and
    then becomes InRoom of the code joined or created, whether the session
    was Unaffiliated or InRoom of another code before; no other event, and
    no event of another connection, changes it. *)
Theorem affiliation_transitions fuel st ev st' out s :
  reachable st → handle fuel st ev = Some (Done (st', out)) →
  (∀ ud', Update.sockets st' !! s = Some ud' →
     match Update.sockets st !! s with
     | None => ev = Update.on_connection s ∧
               Update.affiliation_of ud' = Update.Unaffiliated
     | Some ud =>
         Update.affiliation_of ud' = Update.affiliation_of ud ∨
         ∃ c, Update.affiliation_of ud' = Update.InRoom c ∧
              ((ev = Update.on_joinRoom s c ∧ is_Some (Update.gameRooms st !! c)) ∨
               (ev = Update.on_createRoom s ∧ Update.gameRooms st !! c = None ∧
                is_Some (Update.gameRooms st' !! c)))
     end) ∧
  (is_Some (Update.sockets st !! s) → Update.sockets st' !! s = None →
   ev = Update.on_disconnecting s).
Proof.
  intros Hreach Hstep.
  destruct (reachable_inv st Hreach) as [Hcodes Hsock _].
  destruct ev as [t|t|t n|t c|t|t items|t]; simpl in Hstep.
  - destruct (decide _) as [[Hlen Hnew]|]; [|done]. simplify_eq/=. split.
    + intros ud'. rewrite lookup_insert. destruct (decide (t = s)) as [->|Hne].
      * intros [= <-]. destruct (Update.sockets st !! s) as [ud|] eqn:Hs; [|done].
        destruct (Hsock s ud Hs) as (_ & ? & _). done.
      * intros Hs. rewrite Hs. by left.
    + intros [ud Hs]. rewrite lookup_insert. destruct (decide (t = s)); [done|congruence].
  - destruct (Update.sockets st !! t) as [udt|] eqn:Ht; simplify_eq/=. split.
    + intros ud' Hs. rewrite Hs. by left.
    + intros [ud Hs]. congruence.
  - destruct (Update.sockets st !! t) as [udt|] eqn:Ht; simplify_eq/=. split.
    + intros ud'. rewrite lookup_insert. destruct (decide (t = s)) as [->|Hne].
      * intros [= <-]. rewrite Ht. by left.
      * intros Hs. rewrite Hs. by left.
    + intros [ud Hs]. rewrite lookup_insert. destruct (decide (t = s)); [done|congruence].
  - destruct (Update.sockets st !! t) as [udt|] eqn:Ht; [|done]. simpl in Hstep.
    unfold Update.joinRoom in Hstep.
    destruct (Update.gameRooms st !! c) as [room|] eqn:Hc; simplify_eq/=.
    + destruct (Hcodes c room Hc) as (Hl & _). split.
      * intros ud'. rewrite lookup_insert. destruct (decide (t = s)) as [->|Hne].
        -- intros [= <-]. rewrite Ht. right. exists c. split.
           ++ apply affiliation_InRoom. split; [done|by apply code_not_empty].
           ++ left. split; [done|]. by rewrite Hc.
        -- intros Hs. rewrite Hs. by left.
      * intros [ud Hs]. rewrite lookup_insert. destruct (decide (t = s)); [done|congruence].
    + split.
      * intros ud' Hs. rewrite Hs. by left.
      * intros [ud Hs]. congruence.
  - destruct (Update.sockets st !! t) as [udt|] eqn:Ht; [|done]. simpl in Hstep.
    injection Hstep as Hstep.
    apply createRoom_done in Hstep as (c & cur & _ & Hfresh & Hl & -> & _). simpl. split.
    + intros ud'. rewrite lookup_insert. destruct (decide (t = s)) as [->|Hne].
      * intros [= <-]. rewrite Ht. right. exists c. split.
        -- apply affiliation_InRoom. split; [done|by apply code_not_empty].
        -- right. split; [done|]. split; [done|]. by rewrite lookup_insert_eq.
      * intros Hs. rewrite Hs. by left.
    + intros [ud Hs]. rewrite lookup_insert. destruct (decide (t = s)); [done|congruence].
  - destruct (Update.sockets st !! t) as [udt|] eqn:Ht; [|done]. simpl in Hstep.
    unfold Update.updateWishlist in Hstep.
    assert (Hsame : Update.sockets st' = Update.sockets st).
    { destruct (decide _); simplify_eq/=; [done|].
      by destruct (Update.gameRooms st !! Update.roomCode udt); simplify_eq/=. }
    rewrite Hsame. split.
    + intros ud' Hs. rewrite Hs. by left.
    + intros [ud Hs]. congruence.
  - destruct (Update.sockets st !! t) as [udt|] eqn:Ht; [|done]. simpl in Hstep.
    unfold Update.close in Hstep.
    destruct (Update.disconnecting st t udt) as [reg|]; [|done]. simplify_eq/=. split.
    + intros ud'. rewrite lookup_delete. destruct (decide (t = s)); [done|].
      intros Hs. rewrite Hs. by left.
    + intros [ud Hs]. rewrite lookup_delete. destruct (decide (t = s)) as [->|]; [done|congruence].
Qed.

End UpdateProperties.

(** ** Concrete runs

    The runs below use the alphabet A, B, C, D.  Facts about the state a
    run ends in are computed from the run. *)

(** C1, a run: the random source makes the second request draw the code
    of the first room again, so its loop retries once.  Sockets a and b
    create rooms ABCDAB and CDABCD. *)
Lemma createRoom_codes_witness :
  let rnd := λ n, if n <? 14 then (n - 2) mod 6 else n in
  let a := "AAAAAAAAAAAAAAAAAAAA" in
  let b := "BBBBBBBBBBBBBBBBBBBB" in
  match Update.run rnd "A" ["B"; "C"; "D"]%char 1 Update.init
          [Update.on_connection a; Update.on_connection b],
        Update.run rnd "A" ["B"; "C"; "D"]%char 1 Update.init
          [Update.on_connection a; Update.on_connection b; Update.on_createRoom a] with
  | Some st, Some st1 =>
      (∃ st', Update.createRooms rnd "A" ["B"; "C"; "D"]%char 1 st [a; b]
              = Some (st', ["ABCDAB"; "CDABCD"]) ∧
              NoDup ["ABCDAB"; "CDABCD"] ∧
              Update.players <$> Update.gameRooms st' !! "CDABCD" = Some {[ b ]}) ∧
      is_Some (Update.gameRooms st1 !! "ABCDAB") ∧
      Update.candidate rnd "A" ["B"; "C"; "D"]%char (Update.cursor st1) 0 = "ABCDAB" ∧
      ∃ st2, Update.handle rnd "A" ["B"; "C"; "D"]%char 1 st1 (Update.on_createRoom b)
             = Some (Done (st2, [Emit {[ b ]} (generateCode "CDABCD")]))
  | _, _ => False
  end.
Proof.
  intros rnd a b.
  destruct (Update.run _ _ _ _ _ [_; _]) as [st|] eqn:Hrun;
    [|vm_compute in Hrun; discriminate].
  destruct (Update.run _ _ _ _ _ [_; _; _]) as [st1|] eqn:Hrun1;
    [|vm_compute in Hrun1; discriminate].
  vm_compute in Hrun. injection Hrun as Hst.
  vm_compute in Hrun1. injection Hrun1 as Hst1.
  split.
  - destruct (Update.createRooms rnd "A" ["B"; "C"; "D"]%char 1 st [a; b])
      as [[st' cs]|] eqn:Hcs; [|rewrite <- Hst in Hcs; vm_compute in Hcs; discriminate].
    destruct (createRoom_codes rnd "A" ["B"; "C"; "D"]%char 1 st [a; b]) as [Hseq _].
    destruct (Hseq st' cs Hcs) as [Hnd Hall].
    assert (Hcodes : cs = ["ABCDAB"; "CDABCD"]).
    { rewrite <- Hst in Hcs. vm_compute in Hcs. by injection Hcs. }
    subst cs. exists st'. split; [done|]. split; [done|].
    inversion Hall as [|? ? ? ? _ Hrest]; subst.
    inversion Hrest as [|? ? ? ? (_ & _ & Hb) _]; subst.
    rewrite Hb. vm_compute. reflexivity.
  - assert (H0 : Update.candidate rnd "A" ["B"; "C"; "D"]%char (Update.cursor st1) 0 = "ABCDAB")
      by by_run Hst1.
    assert (H1 : Update.candidate rnd "A" ["B"; "C"; "D"]%char (Update.cursor st1) 1 = "CDABCD")
      by by_run Hst1.
    assert (Htaken : is_Some (Update.gameRooms st1 !! "ABCDAB"))
      by (rewrite <- Hst1; eexists; vm_compute; reflexivity).
    split; [exact Htaken|]. split; [exact H0|].
    destruct (createRoom_codes rnd "A" ["B"; "C"; "D"]%char 1 st1 []) as [_ Hone].
    destruct (Hone b {| Update.name := "Player0"; Update.roomCode := "" |} 1)
      as (st2 & Hst2 & _).
    + by_run Hst1.
    + intros i Hi. assert (i = 0) as -> by lia. by rewrite H0.
    + rewrite H1. by_run Hst1.
    + lia.
    + exists st2. by rewrite Hst2, H1.
Defined.

(** C2, a run: a connected socket asks for a room that does not exist. *)
Lemma joinRoom_unknown_code_witness :
  let a := "AAAAAAAAAAAAAAAAAAAA" in
  match Update.run (λ n, n) "A" ["B"; "C"; "D"]%char 0 Update.init
          [Update.on_connection a] with
  | Some st =>
      Update.handle (λ n, n) "A" ["B"; "C"; "D"]%char 0 st (Update.on_joinRoom a "NOROOM")
      = Some (Done (st, [Emit {[ a ]} (invalidRoomCode "Not a valid room code.")]))
  | None => False
  end.
Proof.
  intros a.
  destruct (Update.run _ _ _ _ _ _) as [st|] eqn:Hrun; [|vm_compute in Hrun; discriminate].
  vm_compute in Hrun. injection Hrun as Hst.
  destruct (joinRoom_unknown_code (λ n, n) "A" ["B"; "C"; "D"]%char 0 st a
              {| Update.name := "Player0"; Update.roomCode := "" |} "NOROOM")
    as (st' & out & Hh & -> & _ & -> & _); [by_run Hst|by_run Hst|exact Hh].
Defined.

(** C3, a run: a creates room BCDABC and writes a wishlist, b joins and is
    sent the acknowledgment and then the wishlist; a receives nothing. *)
Lemma joinRoom_known_code_witness :
  let a := "AAAAAAAAAAAAAAAAAAAA" in
  let b := "BBBBBBBBBBBBBBBBBBBB" in
  match Update.run (λ n, n) "A" ["B"; "C"; "D"]%char 0 Update.init
          [Update.on_connection a; Update.on_createRoom a;
           Update.on_updateWishlist a ["sword"]; Update.on_connection b] with
  | Some st =>
      ∃ st' out ud',
        Update.handle (λ n, n) "A" ["B"; "C"; "D"]%char 0 st (Update.on_joinRoom b "BCDABC")
        = Some (Done (st', out)) ∧
        Update.sockets st' !! b = Some ud' ∧
        Update.affiliation_of ud' = Update.InRoom "BCDABC" ∧
        Update.players <$> Update.gameRooms st' !! "BCDABC" = Some {[ a; b ]} ∧
        received b out = [generateCode "BCDABC"; wishlistUpdated ["sword"]] ∧
        received a out = []
  | None => False
  end.
Proof.
  intros a b.
  destruct (Update.run _ _ _ _ _ _) as [st|] eqn:Hrun; [|vm_compute in Hrun; discriminate].
  pose proof (run_reachable _ _ _ _ _ _ _ (Update.reachable_init _ _ _) Hrun) as Hreach.
  vm_compute in Hrun. injection Hrun as Hst.
  destruct (joinRoom_known_code (λ n, n) "A" ["B"; "C"; "D"]%char 0 st b
              {| Update.name := "Player7"; Update.roomCode := "" |} "BCDABC"
              {| Update.code := "BCDABC"; Update.players := {[ a ]};
                 Update.wishlist := ["sword"] |})
    as (st' & out & ud' & Hh & Hs' & Haff & Hroom & _ & _ & Hb & Ha);
    [exact Hreach|by_run Hst|by_run Hst|].
  exists st', out, ud'. split; [exact Hh|]. split; [exact Hs'|]. split; [exact Haff|].
  split; [rewrite Hroom; vm_compute; reflexivity|]. split; [exact Hb|].
  apply Ha. discriminate.
Defined.

(** C4, a run: a and b sit in room BCDABC, a writes a wishlist; both are
    sent it and the room stores it.  Then a closes, c connects and joins the
    room: the room, now of b and c, still reads the wishlist a wrote. *)
Lemma updateWishlist_replaces_and_fans_out_witness :
  let a := "AAAAAAAAAAAAAAAAAAAA" in
  let b := "BBBBBBBBBBBBBBBBBBBB" in
  let c := "CCCCCCCCCCCCCCCCCCCC" in
  match Update.run (λ n, n) "A" ["B"; "C"; "D"]%char 0 Update.init
          [Update.on_connection a; Update.on_createRoom a;
           Update.on_connection b; Update.on_joinRoom b "BCDABC"] with
  | Some st =>
      ∃ st',
        Update.handle (λ n, n) "A" ["B"; "C"; "D"]%char 0 st
          (Update.on_updateWishlist a ["sword"; "shield"])
        = Some (Done (st', [Emit {[ a; b ]} (wishlistUpdated ["sword"; "shield"])])) ∧
        Update.wishlist <$> Update.gameRooms st' !! "BCDABC" = Some ["sword"; "shield"] ∧
        ∃ st'' room'',
          Update.run (λ n, n) "A" ["B"; "C"; "D"]%char 0 st'
            [Update.on_disconnecting a; Update.on_connection c;
             Update.on_joinRoom c "BCDABC"] = Some st'' ∧
          Update.gameRooms st'' !! "BCDABC" = Some room'' ∧
          Update.players room'' = {[ b; c ]} ∧
          Update.wishlist room'' = ["sword"; "shield"]
  | None => False
  end.
Proof.
  intros a b c.
  destruct (Update.run _ _ _ _ _ _) as [st|] eqn:Hrun; [|vm_compute in Hrun; discriminate].
  pose proof (run_reachable _ _ _ _ _ _ _ (Update.reachable_init _ _ _) Hrun) as Hreach.
  vm_compute in Hrun. injection Hrun as Hst.
  destruct (updateWishlist_replaces_and_fans_out (λ n, n) "A" ["B"; "C"; "D"]%char 0 st a
              {| Update.name := "Player0"; Update.roomCode := "BCDABC" |}
              ["sword"; "shield"] Hreach) as [_ Hin]; [by_run Hst|].
  destruct (Hin "BCDABC")
    as (room & st' & out & Hroom & Hh & -> & _ & _ & _ & Hw & _ & _ & _ & Hlater);
    [vm_compute; reflexivity|].
  assert (Hr : room = {| Update.code := "BCDABC"; Update.players := {[ a; b ]};
                         Update.wishlist := [] |}).
  { rewrite <- Hst in Hroom. vm_compute in Hroom. by injection Hroom. }
  assert (Hd : Update.players room ∩ dom (Update.sockets st) = {[ a; b ]}).
  { rewrite Hr, <- Hst. vm_compute. reflexivity. }
  exists st'. split; [by rewrite Hh, Hd|]. split; [exact Hw|].
  pose proof Hh as Hst'. rewrite <- Hst in Hst'. vm_compute in Hst'.
  injection Hst' as Hst' _.
  pose (evs := [Update.on_disconnecting a; Update.on_connection c;
                Update.on_joinRoom c "BCDABC"]).
  destruct (Update.run (λ n, n) "A" ["B"; "C"; "D"]%char 0 st' evs) as [st''|] eqn:Hrun';
    [|rewrite <- Hst' in Hrun'; vm_compute in Hrun'; discriminate].
  pose proof Hrun' as Hst''. rewrite <- Hst' in Hst''. vm_compute in Hst''.
  injection Hst'' as Hst''.
  destruct (Update.gameRooms st'' !! "BCDABC") as [room''|] eqn:Hroom'';
    [|rewrite <- Hst'' in Hroom''; vm_compute in Hroom''; discriminate].
  exists st'', room''. split; [done|]. split; [done|]. split.
  - rewrite <- Hst'' in Hroom''. vm_compute in Hroom''. injection Hroom'' as <-.
    vm_compute. reflexivity.
  - apply (Hlater 0 evs st'' room'' Hrun'); [|done].
    rewrite <- Hst'. vm_compute.
    repeat split; try (intros []); eexists; reflexivity.
Defined.


(** C8, counterexample.  A session that created a room and is InRoom of its
    code sends createRoom again: it stays connected and is now InRoom of
    another code. *)
Lemma createRoom_replaces_affiliation :
  let a := "AAAAAAAAAAAAAAAAAAAA" in
  match Update.run (λ n, n) "A" ["B"; "C"; "D"]%char 0 Update.init
          [Update.on_connection a; Update.on_createRoom a] with
  | Some st =>
      Update.affiliation_of <$> Update.sockets st !! a = Some (Update.InRoom "BCDABC") ∧
      ¬ Update.keeps_room (λ n, n) "A" ["B"; "C"; "D"]%char 0 st (Update.on_createRoom a)
  | None => False
  end.
Proof.
  intros a.
  destruct (Update.run _ _ _ _ _ _) as [st|] eqn:Hrun; [|vm_compute in Hrun; discriminate].
  vm_compute in Hrun. injection Hrun as Hst.
  split; [by_run Hst|]. intros Hkeep.
  destruct (Update.handle (λ n, n) "A" ["B"; "C"; "D"]%char 0 st (Update.on_createRoom a))
    as [[[st' out]| |]|] eqn:Hh;
    try (rewrite <- Hst in Hh; vm_compute in Hh; discriminate).
  specialize (Hkeep st' out a "BCDABC"
                {| Update.name := "Player0"; Update.roomCode := "BCDABC" |}
                {| Update.name := "Player0"; Update.roomCode := "DABCDA" |} Hh).
  assert (Hbad : Update.affiliation_of
                   {| Update.name := "Player0"; Update.roomCode := "DABCDA" |}
                 = Update.InRoom "BCDABC").
  { apply Hkeep; [by_run Hst|vm_compute; reflexivity|].
    rewrite <- Hst in Hh. vm_compute in Hh. injection Hh as Hst' _.
    by_run Hst'. }
  vm_compute in Hbad. discriminate.
Qed.

(** C8, a run: b joins the room of a; the affiliation of a stays
    InRoom BCDABC, and the event is not the end of a's session. *)
Lemma affiliation_transitions_witness :
  let a := "AAAAAAAAAAAAAAAAAAAA" in
  let b := "BBBBBBBBBBBBBBBBBBBB" in
  match Update.run (λ n, n) "A" ["B"; "C"; "D"]%char 0 Update.init
          [Update.on_connection a; Update.on_createRoom a; Update.on_connection b] with
  | Some st =>
      ∃ st' out,
        Update.handle (λ n, n) "A" ["B"; "C"; "D"]%char 0 st (Update.on_joinRoom b "BCDABC")
        = Some (Done (st', out)) ∧
        (is_Some (Update.sockets st !! a) → Update.sockets st' !! a = None →
         Update.on_joinRoom b "BCDABC" = Update.on_disconnecting a) ∧
        ∀ ud', Update.sockets st' !! a = Some ud' →
          Update.affiliation_of ud' = Update.InRoom "BCDABC" ∨
          ∃ c, Update.affiliation_of ud' = Update.InRoom c ∧
               ((Update.on_joinRoom b "BCDABC" = Update.on_joinRoom a c ∧
                 is_Some (Update.gameRooms st !! c)) ∨
                (Update.on_joinRoom b "BCDABC" = Update.on_createRoom a ∧
                 Update.gameRooms st !! c = None ∧ is_Some (Update.gameRooms st' !! c)))
  | None => False
  end.
Proof.
  intros a b.
  destruct (Update.run _ _ _ _ _ _) as [st|] eqn:Hrun; [|vm_compute in Hrun; discriminate].
  pose proof (run_reachable _ _ _ _ _ _ _ (Update.reachable_init _ _ _) Hrun) as Hreach.
  vm_compute in Hrun. injection Hrun as Hst.
  destruct (Update.handle (λ n, n) "A" ["B"; "C"; "D"]%char 0 st (Update.on_joinRoom b "BCDABC"))
    as [[[st' out]| |]|] eqn:Hh;
    try (rewrite <- Hst in Hh; vm_compute in Hh; discriminate).
  exists st', out. split; [reflexivity|].
  destruct (affiliation_transitions (λ n, n) "A" ["B"; "C"; "D"]%char 0 st
              (Update.on_joinRoom b "BCDABC") st' out a Hreach Hh) as [Hchange Hend].
  split; [exact Hend|]. intros ud' Hs'. specialize (Hchange ud' Hs').
  assert (Hs : Update.sockets st !! a
               = Some {| Update.name := "Player0"; Update.roomCode := "BCDABC" |})
    by by_run Hst.
  rewrite Hs in Hchange. exact Hchange.
Defined.

(** C10, on a state built by hand, whose only session stores a code the
    registry does not have. *)
Lemma updateWishlist_dangling_code_witness :
  let a := "AAAAAAAAAAAAAAAAAAAA" in
  let st := {| Update.gameRooms := ∅;
               Update.sockets := {[ a := {| Update.name := "Player0";
                                            Update.roomCode := "ZZZZZZ" |} ]};
               Update.rooms := {[ a := {[ a ]} ]};
               Update.issued := {[ a ]};
               Update.cursor := 1 |} in
  Update.handle (λ n, n) "A" ["B"; "C"; "D"]%char 0 st (Update.on_updateWishlist a ["sword"])
  = Some (Done (st, [])).
Proof.
  intros a st.
  apply (updateWishlist_dangling_code (λ n, n) "A" ["B"; "C"; "D"]%char 0 st a
           {| Update.name := "Player0"; Update.roomCode := "ZZZZZZ" |} ["sword"]).
  - vm_compute. reflexivity.
  - discriminate.
  - vm_compute. reflexivity.
Defined.

(** * Further properties of the handlers *)

(** ** The chat namespace *)

Lemma chat_handle_rooms_connected st ev st' out :
  (∀ r m, Chat.rooms st !! r = Some m → m ≠ ∅ ∧ m ⊆ dom (Chat.sockets st)) →
  Chat.handle st ev = Some (Done (st', out)) →
  ∀ r m, Chat.rooms st' !! r = Some m → m ≠ ∅ ∧ m ⊆ dom (Chat.sockets st').
Proof.
  intros Hwf Hstep.
  assert (Hmem : ∀ r, Adapter.members (Chat.rooms st) r ⊆ dom (Chat.sockets st)).
  { intros r. unfold Adapter.members.
    destruct (Chat.rooms st !! r) as [m|] eqn:Hr; simpl; [by apply (Hwf r m)|set_solver]. }
  assert (Hjoin : ∀ t r0, is_Some (Chat.sockets st !! t) →
            ∀ r m, Adapter.join t r0 (Chat.rooms st) !! r = Some m →
                   m ≠ ∅ ∧ m ⊆ dom (Chat.sockets st)).
  { intros t r0 Ht r m. unfold Adapter.join. rewrite lookup_insert.
    destruct (decide (r0 = r)) as [<-|]; [|by apply Hwf].
    intros [= <-]. apply elem_of_dom in Ht. specialize (Hmem r0). set_solver. }
  destruct ev as [t|t n|t r0|t arg|t r0|t]; simpl in Hstep.
  - destruct (Chat.sockets st !! t) eqn:Ht; [done|]. simplify_eq/=.
    intros r m. unfold Adapter.join. rewrite lookup_insert, dom_insert_L.
    destruct (decide (t = r)) as [<-|].
    + intros [= <-]. specialize (Hmem t). set_solver.
    + intros Hr. destruct (Hwf r m Hr). set_solver.
  - destruct (Chat.sockets st !! t) eqn:Ht; simplify_eq/=.
    intros r m Hr. rewrite dom_insert_L. destruct (Hwf r m Hr). set_solver.
  - destruct (Chat.sockets st !! t) eqn:Ht; simplify_eq/=. by apply Hjoin.
  - destruct (Chat.sockets st !! t) eqn:Ht; simplify_eq/=.
    destruct arg; simplify_eq/=. done.
  - destruct (Chat.sockets st !! t) eqn:Ht; simplify_eq/=. by apply Hjoin.
  - destruct (Chat.sockets st !! t) eqn:Ht; simplify_eq/=.
    intros r m. unfold Adapter.leave_all. rewrite lookup_omap, dom_delete_L.
    destruct (Chat.rooms st !! r) as [m0|] eqn:Hr; simpl; [|done].
    destruct (decide (m0 ∖ {[t]} = ∅)); [done|]. intros [= <-].
    destruct (Hwf r m0 Hr). set_solver.
Qed.

Lemma chat_reachable_rooms_connected st :
  Chat.reachable st →
  ∀ r m, Chat.rooms st !! r = Some m → m ≠ ∅ ∧ m ⊆ dom (Chat.sockets st).
Proof.
  induction 1 as [|st ev st' out _ IH Hstep].
  - intros r m Hr. simpl in Hr. by rewrite lookup_empty in Hr.
  - by eapply chat_handle_rooms_connected.
Qed.

Lemma chat_members_connected st r :
  Chat.reachable st → Adapter.members (Chat.rooms st) r ⊆ dom (Chat.sockets st).
Proof.
  intros Hreach. unfold Adapter.members.
  destruct (Chat.rooms st !! r) as [m|] eqn:Hr; simpl; [|set_solver].
  by apply (chat_reachable_rooms_connected st Hreach r m).
Qed.

(** X1.  On every reachable state of the chat namespace the adapter holds
    no empty room, every room holds connected sockets only, and every
    connected socket sits in the room named by its own id. *)
Theorem chat_rooms_hold_connected_sockets st :
  Chat.reachable st →
  (∀ r m, Chat.rooms st !! r = Some m → m ≠ ∅ ∧ m ⊆ dom (Chat.sockets st)) ∧
  (∀ s, is_Some (Chat.sockets st !! s) → s ∈ Adapter.members (Chat.rooms st) s).
Proof.
  intros Hreach. split.
  - by apply chat_reachable_rooms_connected.
  - by apply chat_reachable_own_room.
Qed.

(** X1, a run: a and b join room R and a closes; R is left with b alone,
    and the room named by a's id is gone. *)
Lemma chat_rooms_hold_connected_sockets_witness :
  let a := "AAAAAAAAAAAAAAAAAAAA" in
  let b := "BBBBBBBBBBBBBBBBBBBB" in
  let st := {| Chat.sockets := {[ b := {| Chat.name := "" |} ]};
               Chat.rooms := {[ b := {[ b ]}; "R" := {[ b ]} ]} |} in
  Chat.run Chat.init
    [Chat.on_connection a; Chat.on_connection b; Chat.on_generateCode a "R";
     Chat.on_joinVoiceRoom b "R"; Chat.on_disconnect a] = Some st ∧
  Chat.rooms st !! a = None ∧
  ∀ r m, Chat.rooms st !! r = Some m → m ≠ ∅ ∧ m ⊆ dom (Chat.sockets st).
Proof.
  intros a b st.
  assert (Hrun : Chat.run Chat.init
    [Chat.on_connection a; Chat.on_connection b; Chat.on_generateCode a "R";
     Chat.on_joinVoiceRoom b "R"; Chat.on_disconnect a] = Some st)
    by (vm_compute; reflexivity).
  split; [exact Hrun|]. split; [vm_compute; reflexivity|].
  apply (chat_rooms_hold_connected_sockets st).
  exact (chat_run_reachable _ _ _ Chat.reachable_init Hrun).
Defined.

(** X2.  A socket that is not connected receives nothing: on a reachable
    state every emission of every chat event goes to connected sockets
    only, so a closed socket is reached by no later message or voice
    announcement. *)
Theorem chat_closed_socket_receives_nothing st ev st' out t :
  Chat.reachable st → Chat.sockets st !! t = None →
  Chat.handle st ev = Some (Done (st', out)) →
  received t out = [].
Proof.
  intros Hreach Ht Hstep.
  assert (Hnot : t ∉ dom (Chat.sockets st)) by by apply not_elem_of_dom.
  pose proof (chat_members_connected st) as Hmem.
  destruct ev as [s|s n|s r0|s arg|s r0|s]; simpl in Hstep.
  - destruct (Chat.sockets st !! s); by simplify_eq/=.
  - destruct (Chat.sockets st !! s); by simplify_eq/=.
  - destruct (Chat.sockets st !! s); by simplify_eq/=.
  - destruct (Chat.sockets st !! s) as [ud|] eqn:Hs; [|done]. simpl in Hstep.
    destruct arg as [|message roomName]; simplify_eq/=.
    rewrite received_cons, received_nil. simpl.
    destruct (decide _) as [Hin|]; [|done].
    unfold Adapter.to in Hin. specialize (Hmem roomName Hreach). set_solver.
  - destruct (Chat.sockets st !! s) as [ud|] eqn:Hs; simplify_eq/=.
    apply elem_of_dom_2 in Hs.
    rewrite !received_cons, received_nil. simpl.
    unfold Adapter.to. rewrite members_join_eq.
    specialize (Hmem r0 Hreach).
    destruct (decide _) as [Hin|]; [set_solver|].
    destruct (decide _) as [Hin|]; [set_solver|done].
  - destruct (Chat.sockets st !! s); by simplify_eq/=.
Qed.

(** X2, a run: a and b sit in room R, b closes, a sends to R; b receives
    nothing. *)
Lemma chat_closed_socket_receives_nothing_witness :
  let a := "AAAAAAAAAAAAAAAAAAAA" in
  let b := "BBBBBBBBBBBBBBBBBBBB" in
  let st := {| Chat.sockets := {[ a := {| Chat.name := "" |} ]};
               Chat.rooms := {[ a := {[ a ]}; "R" := {[ a ]} ]} |} in
  Chat.run Chat.init
    [Chat.on_connection a; Chat.on_connection b; Chat.on_generateCode a "R";
     Chat.on_generateCode b "R"; Chat.on_disconnect b] = Some st ∧
  ∃ out, Chat.handle st (Chat.on_sendMessage a (Chat.argument "hi" "R"))
         = Some (Done (st, out)) ∧ received b out = [].
Proof.
  intros a b st.
  assert (Hrun : Chat.run Chat.init
    [Chat.on_connection a; Chat.on_connection b; Chat.on_generateCode a "R";
     Chat.on_generateCode b "R"; Chat.on_disconnect b] = Some st)
    by (vm_compute; reflexivity).
  split; [exact Hrun|].
  exists [Emit ∅ (broadcastMessage a "hi" "")].
  assert (Hh : Chat.handle st (Chat.on_sendMessage a (Chat.argument "hi" "R"))
               = Some (Done (st, [Emit ∅ (broadcastMessage a "hi" "")])))
    by (vm_compute; reflexivity).
  split; [exact Hh|].
  apply (chat_closed_socket_receives_nothing st
           (Chat.on_sendMessage a (Chat.argument "hi" "R")) st _ b).
  - exact (chat_run_reachable _ _ _ Chat.reachable_init Hrun).
  - vm_compute. reflexivity.
  - exact Hh.
Defined.

Lemma chat_handle_keeps_name st ev st' out s ud :
  Chat.handle st ev = Some (Done (st', out)) →
  Chat.sockets st !! s = Some ud →
  (∀ n, ev ≠ Chat.on_setName s n) → ev ≠ Chat.on_disconnect s →
  Chat.sockets st' !! s = Some ud.
Proof.
  intros Hstep Hs Hname Hclose.
  destruct ev as [t|t n|t r0|t arg|t r0|t]; simpl in Hstep.
  - destruct (Chat.sockets st !! t) eqn:Ht; [done|]. simplify_eq/=.
    rewrite lookup_insert_ne; [done|congruence].
  - destruct (Chat.sockets st !! t) eqn:Ht; simplify_eq/=.
    rewrite lookup_insert_ne; [done|]. intros ->. by apply (Hname n).
  - destruct (Chat.sockets st !! t); by simplify_eq/=.
  - destruct (Chat.sockets st !! t); [|done]. destruct arg; by simplify_eq/=.
  - destruct (Chat.sockets st !! t); by simplify_eq/=.
  - destruct (Chat.sockets st !! t); simplify_eq/=.
    rewrite lookup_delete_ne; [done|]. intros ->. by apply Hclose.
Qed.

(** X3.  The name a chat message carries is the one its sender set last:
    after setName with [n], through any events that are neither another
    setName of that socket nor its disconnect, sendMessage of the socket
    emits broadcastMessage with the sender's id, the message and [n]. *)
Theorem broadcast_carries_last_name st s n evs st' message roomName :
  is_Some (Chat.sockets st !! s) →
  Chat.run (Chat.setName st s n) evs = Some st' →
  Forall (λ ev, (∀ n', ev ≠ Chat.on_setName s n') ∧ ev ≠ Chat.on_disconnect s) evs →
  Chat.handle st (Chat.on_setName s n) = Some (Done (Chat.setName st s n, [])) ∧
  ∃ to, Chat.handle st' (Chat.on_sendMessage s (Chat.argument message roomName))
        = Some (Done (st', [Emit to (broadcastMessage s message n)])).
Proof.
  intros [ud Hs] Hrun Hall. split; [simpl; by rewrite Hs|].
  assert (Hn : Chat.sockets (Chat.setName st s n) !! s = Some {| Chat.name := n |})
    by (simpl; by rewrite lookup_insert_eq).
  revert Hrun Hn. generalize (Chat.setName st s n). clear Hs ud st.
  induction Hall as [|ev evs [Hname Hclose] _ IH]; intros st Hrun Hn; simpl in Hrun.
  - simplify_eq. eexists. simpl. rewrite Hn. reflexivity.
  - destruct (Chat.handle st ev) as [[[st1 out]| |]|] eqn:Hstep; try done.
    apply (IH st1 Hrun). by eapply chat_handle_keeps_name.
Qed.

(** X3, a run: a names itself Ann, joins a room, b connects and names
    itself, then a sends; the message carries Ann. *)
Lemma broadcast_carries_last_name_witness :
  let a := "AAAAAAAAAAAAAAAAAAAA" in
  let b := "BBBBBBBBBBBBBBBBBBBB" in
  ∃ st', Chat.run Chat.init
           [Chat.on_connection a; Chat.on_setName a "Ann"; Chat.on_generateCode a "R";
            Chat.on_connection b; Chat.on_setName b "Bob"; Chat.on_generateCode b "R"]
         = Some st' ∧
         Chat.handle st' (Chat.on_sendMessage a (Chat.argument "hi" "R"))
         = Some (Done (st', [Emit {[ b ]} (broadcastMessage a "hi" "Ann")])).
Proof.
  intros a b.
  pose (st := {| Chat.sockets := {[ a := {| Chat.name := "" |} ]};
                 Chat.rooms := {[ a := {[ a ]} ]} |}).
  pose (evs := [Chat.on_generateCode a "R"; Chat.on_connection b;
                Chat.on_setName b "Bob"; Chat.on_generateCode b "R"]).
  destruct (Chat.run (Chat.setName st a "Ann") evs) as [st'|] eqn:Hrun;
    [|vm_compute in Hrun; discriminate].
  exists st'. split.
  { change (Chat.run Chat.init ([Chat.on_connection a; Chat.on_setName a "Ann"] ++ evs)%list
            = Some st').
    rewrite <- Hrun. clear Hrun. vm_compute. reflexivity. }
  destruct (broadcast_carries_last_name st a "Ann" evs st' "hi" "R") as [_ [to Hto]].
  - eexists. vm_compute. reflexivity.
  - exact Hrun.
  - repeat constructor; intros; discriminate.
  - rewrite Hto. vm_compute in Hrun. injection Hrun as Hst.
    rewrite <- Hst in Hto. vm_compute in Hto. injection Hto as Hto.
    by rewrite <- Hto.
Defined.



Lemma join_again id room rooms :
  id ∈ Adapter.members rooms room → Adapter.join id room rooms = rooms.
Proof.
  unfold Adapter.join, Adapter.members. intros Hin.
  destruct (rooms !! room) as [m|] eqn:Hr; simpl in *; [|set_solver].
  apply insert_id. rewrite Hr. f_equal. set_solver.
Qed.

(** X5.  Joining a room again changes nothing in the state, by generateCode
    or by joinVoiceRoom; but joinVoiceRoom keeps no record of who was
    announced, so a socket that joins a voice room it already sits in is
    announced again to the same sockets and is sent its peer list again. *)
Theorem joinVoiceRoom_again st s roomCode :
  s ∈ Adapter.members (Chat.rooms st) roomCode →
  Chat.generateCode st s roomCode = st ∧
  Chat.joinVoiceRoom st s roomCode
  = (st, [Emit (Adapter.members (Chat.rooms st) roomCode
                  ∖ Adapter.members (Chat.rooms st) s) (newVoicePeer s);
          Emit {[ s ]} (existingVoicePeers
                          (Adapter.members (Chat.rooms st) roomCode ∖ {[ s ]}))]).
Proof.
  intros Hin. unfold Chat.generateCode, Chat.joinVoiceRoom, Adapter.to.
  rewrite except_sids_one, (join_again s roomCode (Chat.rooms st) Hin).
  by destruct st.
Qed.

(** X5, a run: a and b sit in voice room R, b joins R again; a is told of
    b once more. *)
Lemma joinVoiceRoom_again_witness :
  let a := "AAAAAAAAAAAAAAAAAAAA" in
  let b := "BBBBBBBBBBBBBBBBBBBB" in
  let st := {| Chat.sockets := {[ a := {| Chat.name := "" |}; b := {| Chat.name := "" |} ]};
               Chat.rooms := {[ a := {[ a ]}; b := {[ b ]}; "R" := {[ a; b ]} ]} |} in
  Chat.run Chat.init
    [Chat.on_connection a; Chat.on_connection b;
     Chat.on_joinVoiceRoom a "R"; Chat.on_joinVoiceRoom b "R"] = Some st ∧
  Chat.joinVoiceRoom st b "R"
  = (st, [Emit {[ a ]} (newVoicePeer b); Emit {[ b ]} (existingVoicePeers {[ a ]})]).
Proof.
  intros a b st. split; [vm_compute; reflexivity|].
  destruct (joinVoiceRoom_again st b "R") as [_ Hagain].
  - apply (bool_decide_unpack _). vm_compute. exact I.
  - rewrite Hagain. vm_compute. reflexivity.
Defined.

(** ** The update namespace *)

Section UpdateFurther.

Variable random : nat → nat.
Variable alphabet_first : Ascii.ascii.
Variable alphabet_rest : list Ascii.ascii.

Abbreviation createRoom := (Update.createRoom random alphabet_first alphabet_rest).
Abbreviation handle := (Update.handle random alphabet_first alphabet_rest).
Abbreviation reachable := (Update.reachable random alphabet_first alphabet_rest).
Abbreviation run := (Update.run random alphabet_first alphabet_rest).

(** X6.  On every reachable state the delivery group of a room code is
    the set of the connected members of the room of that code, and every
    connected session that stores the code is among them; the code has
    ROOM_CODE_LENGTH characters. *)
Theorem delivery_group_is_connected_membership st c room :
  reachable st → Update.gameRooms st !! c = Some room →
  String.length c = Update.ROOM_CODE_LENGTH ∧
  Adapter.members (Update.rooms st) c = Update.players room ∩ dom (Update.sockets st) ∧
  ∀ s ud, Update.sockets st !! s = Some ud → Update.roomCode ud = c →
          s ∈ Update.players room ∧ s ∈ Adapter.members (Update.rooms st) c.
Proof.
  intros Hreach Hc.
  destruct (reachable_inv _ _ _ st Hreach) as [Hcodes Hsock _].
  destruct (Hcodes c room Hc) as (Hl & _ & _ & Hmem).
  split; [done|]. split; [done|]. intros s ud Hs Hrc.
  destruct (Hsock s ud Hs) as (_ & _ & Hroom).
  destruct Hroom as (room' & Hroom' & Hin).
  { rewrite Hrc. by apply code_not_empty. }
  rewrite Hrc in Hroom'. simplify_eq. split; [done|].
  rewrite Hmem. apply elem_of_dom_2 in Hs. set_solver.
Qed.

(** X7.  The keys of the registry change by createRoom and by disconnect
    only: createRoom adds one code, which was not a key; the disconnect of a
    session takes away at most the code the session stores; every other
    event, joinRoom and updateWishlist included, leaves the keys as they
    are. *)
Theorem registry_keys_change fuel st ev st' out :
  handle fuel st ev = Some (Done (st', out)) →
  match ev with
  | Update.on_createRoom s =>
      ∃ c, Update.gameRooms st !! c = None ∧
           dom (Update.gameRooms st') = {[ c ]} ∪ dom (Update.gameRooms st)
  | Update.on_disconnecting s =>
      dom (Update.gameRooms st') ⊆ dom (Update.gameRooms st) ∧
      ∀ ud, Update.sockets st !! s = Some ud →
            dom (Update.gameRooms st) ∖ dom (Update.gameRooms st') ⊆ {[ Update.roomCode ud ]}
  | _ => dom (Update.gameRooms st') = dom (Update.gameRooms st)
  end.
Proof.
  intros Hstep. destruct ev as [s|s|s n|s c|s|s items|s]; simpl in Hstep.
  - destruct (decide _); by simplify_eq/=.
  - destruct (Update.sockets st !! s); by simplify_eq/=.
  - destruct (Update.sockets st !! s); by simplify_eq/=.
  - destruct (Update.sockets st !! s) as [ud|]; [|done]. simpl in Hstep.
    unfold Update.joinRoom in Hstep.
    destruct (Update.gameRooms st !! c) as [room|] eqn:Hc; simplify_eq/=; [|done].
    rewrite dom_insert_L. apply elem_of_dom_2 in Hc. set_solver.
  - destruct (Update.sockets st !! s) as [ud|]; [|done]. simpl in Hstep.
    injection Hstep as Hstep.
    apply createRoom_done in Hstep as (c & cur & _ & Hfresh & _ & -> & _).
    exists c. split; [done|]. simpl. by rewrite dom_insert_L.
  - destruct (Update.sockets st !! s) as [ud|]; [|done]. simpl in Hstep.
    unfold Update.updateWishlist in Hstep.
    destruct (decide _); simplify_eq/=; [done|].
    destruct (Update.gameRooms st !! Update.roomCode ud) as [room|] eqn:Hc;
      simplify_eq/=; [|done].
    rewrite dom_insert_L. apply elem_of_dom_2 in Hc. set_solver.
  - destruct (Update.sockets st !! s) as [ud|] eqn:Hs; [|done]. simpl in Hstep.
    unfold Update.close, Update.disconnecting in Hstep.
    destruct (decide (Update.roomCode ud = "")); simplify_eq/=.
    { split; [done|]. intros ud' _. set_solver. }
    destruct (Update.gameRooms st !! Update.roomCode ud) as [room|] eqn:Hc; [|done].
    apply elem_of_dom_2 in Hc.
    destruct (decide _); simplify_eq/=.
    + rewrite dom_delete_L. split; [set_solver|]. intros ud' [= <-].
      intros x. destruct (decide (x = Update.roomCode ud)); set_solver.
    + rewrite dom_insert_L. split; [set_solver|]. intros ud' _. set_solver.
Qed.

(** One event takes a member out of a room only when it is the disconnect
    of that member while it stores the code of the room. *)
Lemma member_stays_step fuel st ev st' out c room t :
  handle fuel st ev = Some (Done (st', out)) →
  Update.gameRooms st !! c = Some room → t ∈ Update.players room →
  (∀ ud, ev = Update.on_disconnecting t → Update.sockets st !! t = Some ud →
         Update.roomCode ud ≠ c) →
  ∃ room', Update.gameRooms st' !! c = Some room' ∧ t ∈ Update.players room'.
Proof.
  intros Hstep Hc Ht Hev. destruct ev as [s|s|s n|s c0|s|s items|s]; simpl in Hstep.
  - destruct (decide _); simplify_eq/=. eauto.
  - destruct (Update.sockets st !! s); simplify_eq/=. eauto.
  - destruct (Update.sockets st !! s); simplify_eq/=. eauto.
  - destruct (Update.sockets st !! s) as [ud|]; [|done]. simpl in Hstep.
    unfold Update.joinRoom in Hstep.
    destruct (Update.gameRooms st !! c0) as [room0|] eqn:Hc0; simplify_eq/=; [|eauto].
    rewrite lookup_insert. destruct (decide (c0 = c)) as [->|]; [|eauto].
    simplify_eq. eexists; split; [done|]. simpl. set_solver.
  - destruct (Update.sockets st !! s) as [ud|]; [|done]. simpl in Hstep.
    injection Hstep as Hstep.
    apply createRoom_done in Hstep as (c1 & cur & _ & Hfresh & _ & -> & _). simpl.
    rewrite lookup_insert. destruct (decide (c1 = c)) as [->|]; [congruence|eauto].
  - destruct (Update.sockets st !! s) as [ud|]; [|done]. simpl in Hstep.
    unfold Update.updateWishlist in Hstep.
    destruct (decide _); simplify_eq/=; [eauto|].
    destruct (Update.gameRooms st !! Update.roomCode ud) as [room0|] eqn:Hc0;
      simplify_eq/=; [|eauto].
    rewrite lookup_insert. destruct (decide (Update.roomCode ud = c)) as [E|]; [|eauto].
    rewrite E in Hc0. simplify_eq. eexists; split; [done|]. done.
  - destruct (Update.sockets st !! s) as [ud|] eqn:Hs; [|done]. simpl in Hstep.
    unfold Update.close, Update.disconnecting in Hstep.
    destruct (decide (Update.roomCode ud = "")); simplify_eq/=; [eauto|].
    destruct (Update.gameRooms st !! Update.roomCode ud) as [room0|] eqn:Hc0; [|done].
    assert (Hkeep : Update.roomCode ud = c → t ∈ Update.players room0 ∖ {[ s ]}).
    { intros E. rewrite E in Hc0. simplify_eq. apply elem_of_difference. split; [done|].
      intros Hts%elem_of_singleton. subst t. by apply (Hev ud). }
    destruct (decide (Update.numPlayers (Update.removePlayer s room0) = 0)) as [Hz|Hnz];
      simplify_eq/=.
    + rewrite lookup_delete. destruct (decide (Update.roomCode ud = c)) as [E|]; [|eauto].
      exfalso. specialize (Hkeep E). unfold Update.numPlayers in Hz. simpl in Hz.
      apply size_empty_inv in Hz. set_solver.
    + rewrite lookup_insert. destruct (decide (Update.roomCode ud = c)) as [E|]; [|eauto].
      eexists; split; [done|]. simpl. by apply Hkeep.
Qed.

(** X8.  A member leaves a room only by its own disconnect: through every
    run of events in which the member does not disconnect, its own joinRoom
    or createRoom into another room and the disconnect of anybody else
    included, the room stays in the registry and the member stays in it. *)
Theorem member_stays fuel evs : ∀ st st' c room t,
  run fuel st evs = Some st' →
  Update.gameRooms st !! c = Some room → t ∈ Update.players room →
  Forall (λ ev, ev ≠ Update.on_disconnecting t) evs →
  ∃ room', Update.gameRooms st' !! c = Some room' ∧ t ∈ Update.players room'.
Proof.
  induction evs as [|ev evs IH]; intros st st' c room t Hrun Hc Ht Hall; simpl in Hrun.
  - simplify_eq. eauto.
  - destruct (handle fuel st ev) as [[[st1 out]| |]|] eqn:Hstep; try done.
    apply Forall_cons in Hall as [Hev Hall].
    destruct (member_stays_step fuel st ev st1 out c room t Hstep Hc Ht)
      as (room1 & Hc1 & Ht1); [by intros ud ->|].
    by apply (IH st1 st' c room1 t).
Qed.

Lemma handle_keeps_closed fuel st ev st' out t :
  handle fuel st ev = Some (Done (st', out)) →
  Update.sockets st !! t = None → t ∈ Update.issued st →
  Update.sockets st' !! t = None ∧ t ∈ Update.issued st'.
Proof.
  intros Hstep Ht Hiss. destruct ev as [s|s|s n|s c0|s|s items|s]; simpl in Hstep.
  - destruct (decide _) as [[_ Hnew]|]; simplify_eq/=.
    split; [|set_solver]. rewrite lookup_insert_ne; [done|]. by intros ->.
  - destruct (Update.sockets st !! s); by simplify_eq/=.
  - destruct (Update.sockets st !! s) eqn:Hs; simplify_eq/=.
    split; [|done]. rewrite lookup_insert_ne; [done|]. intros ->. congruence.
  - destruct (Update.sockets st !! s) as [ud|] eqn:Hs; [|done]. simpl in Hstep.
    unfold Update.joinRoom in Hstep.
    destruct (Update.gameRooms st !! c0); simplify_eq/=; [|done].
    split; [|done]. rewrite lookup_insert_ne; [done|]. intros ->. congruence.
  - destruct (Update.sockets st !! s) as [ud|] eqn:Hs; [|done]. simpl in Hstep.
    injection Hstep as Hstep.
    apply createRoom_done in Hstep as (c1 & cur & _ & _ & _ & -> & _). simpl.
    split; [|done]. rewrite lookup_insert_ne; [done|]. intros ->. congruence.
  - destruct (Update.sockets st !! s) as [ud|]; [|done]. simpl in Hstep.
    unfold Update.updateWishlist in Hstep.
    destruct (decide _); simplify_eq/=; [done|].
    destruct (Update.gameRooms st !! Update.roomCode ud); by simplify_eq/=.
  - destruct (Update.sockets st !! s) as [ud|] eqn:Hs; [|done]. simpl in Hstep.
    unfold Update.close in Hstep.
    destruct (Update.disconnecting st s ud); simplify_eq/=.
    split; [|done]. rewrite lookup_delete. by destruct (decide (s = t)).
Qed.

(** X9.  A room that holds a member whose socket has closed is never
    deleted: through every later run of events the room stays in the
    registry with that member in it, and the id never connects again.  Such
    rooms arise when a session joins or creates a second room and closes:
    only the room of the code stored last is left at the disconnect. *)
Theorem departed_member_keeps_room fuel evs : ∀ st st' c room t,
  reachable st →
  Update.gameRooms st !! c = Some room → t ∈ Update.players room →
  Update.sockets st !! t = None →
  run fuel st evs = Some st' →
  ∃ room', Update.gameRooms st' !! c = Some room' ∧ t ∈ Update.players room' ∧
           Update.sockets st' !! t = None.
Proof.
  induction evs as [|ev evs IH]; intros st st' c room t Hreach Hc Ht Hclosed Hrun;
    simpl in Hrun.
  - simplify_eq. eauto.
  - destruct (handle fuel st ev) as [[[st1 out]| |]|] eqn:Hstep; try done.
    destruct (reachable_inv _ _ _ st Hreach) as [Hcodes _ _].
    destruct (Hcodes c room Hc) as (_ & _ & Hiss & _).
    destruct (handle_keeps_closed fuel st ev st1 out t Hstep Hclosed) as [Hclosed1 _];
      [set_solver|].
    destruct (member_stays_step fuel st ev st1 out c room t Hstep Hc Ht) as (room1 & Hc1 & Ht1).
    { intros ud _ Hs. congruence. }
    eapply (IH st1 st' c room1 t); try done.
    by eapply Update.reachable_step.
Qed.

(** X10.  createRoom followed by the disconnect of the creator gives the
    registry back as it was before the room was created, whatever code the
    session stored before: the new room held the creator alone, so the
    disconnect deletes it, and its code is free to be handed out again. *)
Theorem createRoom_then_disconnect fuel st s ud st1 out :
  Update.sockets st !! s = Some ud →
  createRoom fuel st s ud = Done (st1, out) →
  ∃ c st2,
    out = [Emit {[ s ]} (generateCode c)] ∧
    Update.gameRooms st !! c = None ∧
    Update.players <$> Update.gameRooms st1 !! c = Some {[ s ]} ∧
    handle fuel st1 (Update.on_disconnecting s) = Some (Done (st2, [])) ∧
    Update.gameRooms st2 = Update.gameRooms st ∧
    Update.gameRooms st2 !! c = None.
Proof.
  intros Hs Hdone.
  apply createRoom_done in Hdone as (c & cur & _ & Hfresh & Hl & -> & ->).
  exists c. eexists. split; [done|]. split; [done|]. simpl.
  rewrite lookup_insert_eq. simpl. split; [by rewrite (right_id_L ∅ (∪))|].
  assert (Hz : Update.numPlayers
                 (Update.removePlayer s (Update.addPlayer s (Update.new_GameRoom c))) = 0).
  { change (size (({[ s ]} ∪ ∅) ∖ {[ s ]} : gset string) = 0).
    apply (proj2 (size_empty_iff (({[ s ]} ∪ ∅) ∖ {[ s ]} : gset string))). set_solver. }
  split.
  - unfold Update.handle. simpl. rewrite lookup_insert_eq. simpl.
    unfold Update.close, Update.disconnecting. simpl.
    rewrite decide_False by (by apply code_not_empty).
    rewrite lookup_insert_eq. rewrite decide_True by exact Hz. reflexivity.
  - simpl. rewrite delete_insert_eq. rewrite delete_id by done. done.
Qed.

(** X11.  On a reachable state, joinRoom of a room the session is not yet
    a member of, followed by the disconnect of the session, gives the
    registry back as it was: the room is there with its members and its
    wishlist as before the join. *)
Theorem joinRoom_then_disconnect fuel st s ud c room :
  reachable st →
  Update.sockets st !! s = Some ud → Update.gameRooms st !! c = Some room →
  s ∉ Update.players room →
  ∃ st1 out st2,
    handle fuel st (Update.on_joinRoom s c) = Some (Done (st1, out)) ∧
    handle fuel st1 (Update.on_disconnecting s) = Some (Done (st2, [])) ∧
    Update.gameRooms st2 = Update.gameRooms st.
Proof.
  intros Hreach Hs Hc Hnot.
  destruct (reachable_inv _ _ _ st Hreach) as [Hcodes _ _].
  destruct (Hcodes c room Hc) as (Hl & Hne & _ & _).
  assert (Hback : Update.removePlayer s (Update.addPlayer s room) = room).
  { destruct room as [rc rp rw]. unfold Update.removePlayer, Update.addPlayer. simpl in *.
    f_equal. set_solver. }
  assert (Hnz : Update.numPlayers (Update.removePlayer s (Update.addPlayer s room)) ≠ 0).
  { rewrite Hback. unfold Update.numPlayers. intros Hz.
    apply size_empty_inv in Hz. apply Hne. by apply leibniz_equiv. }
  eexists _, _, _. split.
  { unfold Update.handle. rewrite Hs. simpl. unfold Update.joinRoom. rewrite Hc. reflexivity. }
  split.
  - unfold Update.handle. simpl. rewrite lookup_insert_eq. simpl.
    unfold Update.close, Update.disconnecting. simpl.
    rewrite decide_False by (by apply code_not_empty).
    rewrite lookup_insert_eq. rewrite decide_False by exact Hnz. reflexivity.
  - simpl. rewrite insert_insert_eq, Hback. by apply insert_id.
Qed.

(** X12.  joinRoom repeated: a second joinRoom of the same room by the same
    session leaves the whole state as the first left it and answers with
    the same packets as the first. *)
Theorem joinRoom_again fuel st s ud c room :
  Update.sockets st !! s = Some ud → Update.gameRooms st !! c = Some room →
  ∃ st1 out,
    handle fuel st (Update.on_joinRoom s c) = Some (Done (st1, out)) ∧
    handle fuel st1 (Update.on_joinRoom s c) = Some (Done (st1, out)).
Proof.
  intros Hs Hc. eexists _, _. split.
  { unfold Update.handle. rewrite Hs. simpl. unfold Update.joinRoom. rewrite Hc. reflexivity. }
  unfold Update.handle. simpl. rewrite lookup_insert_eq. simpl.
  unfold Update.joinRoom. simpl. rewrite lookup_insert_eq. simpl.
  rewrite !insert_insert_eq.
  rewrite (join_again s c (Adapter.join s c (Update.rooms st)))
    by (rewrite members_join_eq; set_solver).
  replace (Update.addPlayer s (Update.addPlayer s room)) with (Update.addPlayer s room).
  - reflexivity.
  - unfold Update.addPlayer. simpl. f_equal. set_solver.
Qed.

(** X13.  What the update namespace sends stays in the room, setID apart.
    On a reachable state whoever receives a packet is connected; a joinRoom
    and a createRoom answer nobody but their sender, an updateWishlist
    reaches members of the sender's room only, and a connection, a setName
    and a disconnect send nothing; setID alone goes to every connected
    socket, whatever its room. *)
Theorem update_emissions_scope fuel st ev st' out t :
  reachable st → handle fuel st ev = Some (Done (st', out)) →
  received t out ≠ [] →
  is_Some (Update.sockets st !! t) ∧
  match ev with
  | Update.on_setID _ => True
  | Update.on_joinRoom s _ | Update.on_createRoom s => t = s
  | Update.on_updateWishlist s _ =>
      ∃ ud room, Update.sockets st !! s = Some ud ∧
                 Update.gameRooms st !! Update.roomCode ud = Some room ∧
                 t ∈ Update.players room
  | _ => False
  end.
Proof.
  intros Hreach Hstep Hrecv.
  destruct (reachable_inv _ _ _ st Hreach) as [Hcodes _ _].
  destruct ev as [s|s|s n|s c|s|s items|s]; simpl in Hstep.
  - destruct (decide _); by simplify_eq/=.
  - destruct (Update.sockets st !! s); simplify_eq/=.
    rewrite received_cons, received_nil in Hrecv. simpl in Hrecv.
    destruct (decide _) as [Hin|]; [|done]. split; [|done]. by apply elem_of_dom.
  - destruct (Update.sockets st !! s); by simplify_eq/=.
  - destruct (Update.sockets st !! s) as [ud|] eqn:Hs; [|done]. simpl in Hstep.
    assert (t = s) as ->; [|by rewrite Hs].
    unfold Update.joinRoom in Hstep.
    destruct (Update.gameRooms st !! c) as [room|]; simplify_eq/=.
    + rewrite received_cons in Hrecv. simpl in Hrecv.
      destruct (decide (t ∈ ({[ s ]} : gset string))) as [Hin|Hout]; [set_solver|].
      destruct (Update.wishlist room); [done|].
      rewrite received_cons, received_nil in Hrecv. simpl in Hrecv.
      by rewrite decide_False in Hrecv.
    + rewrite received_cons, received_nil in Hrecv. simpl in Hrecv.
      destruct (decide _) as [Hin|]; [set_solver|done].
  - destruct (Update.sockets st !! s) as [ud|] eqn:Hs; [|done]. simpl in Hstep.
    injection Hstep as Hstep.
    apply createRoom_done in Hstep as (c1 & cur & _ & _ & _ & _ & ->).
    rewrite received_cons, received_nil in Hrecv. simpl in Hrecv.
    destruct (decide _) as [Hin|]; [|done].
    assert (t = s) as -> by set_solver. by rewrite Hs.
  - destruct (Update.sockets st !! s) as [ud|] eqn:Hs; [|done]. simpl in Hstep.
    unfold Update.updateWishlist in Hstep.
    destruct (decide _); simplify_eq/=; try done.
    destruct (Update.gameRooms st !! Update.roomCode ud) as [room|] eqn:Hc;
      simplify_eq/=; try done.
    rewrite received_cons, received_nil in Hrecv. simpl in Hrecv.
    destruct (decide _) as [Hin|]; [|done].
    rewrite to_everyone in Hin.
    destruct (Hcodes _ room Hc) as (_ & _ & _ & Hmem). rewrite Hmem in Hin.
    apply elem_of_intersection in Hin as [Hp Hd]. split; [by apply elem_of_dom|].
    eauto.
  - destruct (Update.sockets st !! s) as [ud|]; [|done]. simpl in Hstep.
    unfold Update.close in Hstep. destruct (Update.disconnecting st s ud); by simplify_eq/=.
Qed.

End UpdateFurther.

(** ** Concrete runs of the update namespace *)

(** X6, a run: a creates room BCDABC and b joins it; the delivery group of
    the code is {a, b}. *)
Lemma delivery_group_is_connected_membership_witness :
  let a := "AAAAAAAAAAAAAAAAAAAA" in
  let b := "BBBBBBBBBBBBBBBBBBBB" in
  match Update.run (λ n, n) "A" ["B"; "C"; "D"]%char 0 Update.init
          [Update.on_connection a; Update.on_createRoom a;
           Update.on_connection b; Update.on_joinRoom b "BCDABC"] with
  | Some st =>
      Update.players <$> Update.gameRooms st !! "BCDABC" = Some {[ a; b ]} ∧
      Adapter.members (Update.rooms st) "BCDABC" = {[ a; b ]}
  | None => False
  end.
Proof.
  intros a b.
  destruct (Update.run _ _ _ _ _ _) as [st|] eqn:Hrun; [|vm_compute in Hrun; discriminate].
  pose proof (run_reachable _ _ _ _ _ _ _ (Update.reachable_init _ _ _) Hrun) as Hreach.
  vm_compute in Hrun. injection Hrun as Hst.
  split; [by_run Hst|].
  destruct (delivery_group_is_connected_membership (λ n, n) "A" ["B"; "C"; "D"]%char st
              "BCDABC" {| Update.code := "BCDABC"; Update.players := {[ a; b ]};
                          Update.wishlist := [] |} Hreach) as (_ & Hgroup & _);
    [by_run Hst|].
  rewrite Hgroup. by_run Hst.
Defined.

(** X7, a run: createRoom of a connected socket adds the key BCDABC to
    the empty registry. *)
Lemma registry_keys_change_witness :
  let a := "AAAAAAAAAAAAAAAAAAAA" in
  match Update.run (λ n, n) "A" ["B"; "C"; "D"]%char 0 Update.init
          [Update.on_connection a] with
  | Some st =>
      ∃ st' out,
        Update.handle (λ n, n) "A" ["B"; "C"; "D"]%char 0 st (Update.on_createRoom a)
        = Some (Done (st', out)) ∧
        out = [Emit {[ a ]} (generateCode "BCDABC")] ∧
        ∃ c, Update.gameRooms st !! c = None ∧
             dom (Update.gameRooms st') = {[ c ]} ∪ dom (Update.gameRooms st)
  | None => False
  end.
Proof.
  intros a.
  destruct (Update.run _ _ _ _ _ _) as [st|] eqn:Hrun; [|vm_compute in Hrun; discriminate].
  vm_compute in Hrun. injection Hrun as Hst.
  destruct (Update.handle (λ n, n) "A" ["B"; "C"; "D"]%char 0 st (Update.on_createRoom a))
    as [[[st' out]| |]|] eqn:Hh;
    try (rewrite <- Hst in Hh; vm_compute in Hh; discriminate).
  exists st', out. split; [done|]. split.
  { rewrite <- Hst in Hh. vm_compute in Hh. by injection Hh as _ <-. }
  exact (registry_keys_change (λ n, n) "A" ["B"; "C"; "D"]%char 0 st
           (Update.on_createRoom a) st' out Hh).
Defined.

(** X8, a run: a creates room BCDABC, then creates a second room, b joins
    BCDABC and closes; a is still a member of BCDABC. *)
Lemma member_stays_witness :
  let a := "AAAAAAAAAAAAAAAAAAAA" in
  let b := "BBBBBBBBBBBBBBBBBBBB" in
  match Update.run (λ n, n) "A" ["B"; "C"; "D"]%char 0 Update.init
          [Update.on_connection a; Update.on_createRoom a] with
  | Some st =>
      ∃ st' room',
        Update.run (λ n, n) "A" ["B"; "C"; "D"]%char 0 st
          [Update.on_createRoom a; Update.on_connection b;
           Update.on_joinRoom b "BCDABC"; Update.on_disconnecting b] = Some st' ∧
        Update.roomCode <$> Update.sockets st' !! a = Some "DABCDA" ∧
        Update.gameRooms st' !! "BCDABC" = Some room' ∧ a ∈ Update.players room'
  | None => False
  end.
Proof.
  intros a b.
  destruct (Update.run _ _ _ _ _ _) as [st|] eqn:Hrun; [|vm_compute in Hrun; discriminate].
  vm_compute in Hrun. injection Hrun as Hst.
  destruct (Update.run (λ n, n) "A" ["B"; "C"; "D"]%char 0 st
              [Update.on_createRoom a; Update.on_connection b;
               Update.on_joinRoom b "BCDABC"; Update.on_disconnecting b])
    as [st'|] eqn:Hrun';
    [|rewrite <- Hst in Hrun'; vm_compute in Hrun'; discriminate].
  destruct (member_stays (λ n, n) "A" ["B"; "C"; "D"]%char 0
              [Update.on_createRoom a; Update.on_connection b;
               Update.on_joinRoom b "BCDABC"; Update.on_disconnecting b]
              st st' "BCDABC"
              {| Update.code := "BCDABC"; Update.players := {[ a ]}; Update.wishlist := [] |}
              a Hrun') as (room' & Hroom' & Hin).
  - by_run Hst.
  - apply (bool_decide_unpack _). vm_compute. exact I.
  - repeat constructor; discriminate.
  - exists st', room'. split; [done|]. split; [|done].
    rewrite <- Hst in Hrun'. vm_compute in Hrun'. injection Hrun' as Hst'.
    by_run Hst'.
Defined.

(** X9, a run: a creates two rooms and closes; its first room BCDABC is
    left with the closed a as member, and stays so while b joins it and
    leaves it. *)
Lemma departed_member_keeps_room_witness :
  let a := "AAAAAAAAAAAAAAAAAAAA" in
  let b := "BBBBBBBBBBBBBBBBBBBB" in
  match Update.run (λ n, n) "A" ["B"; "C"; "D"]%char 0 Update.init
          [Update.on_connection a; Update.on_createRoom a; Update.on_createRoom a;
           Update.on_disconnecting a] with
  | Some st =>
      Update.sockets st !! a = None ∧
      Update.players <$> Update.gameRooms st !! "BCDABC" = Some {[ a ]} ∧
      ∃ st' room',
        Update.run (λ n, n) "A" ["B"; "C"; "D"]%char 0 st
          [Update.on_connection b; Update.on_joinRoom b "BCDABC";
           Update.on_disconnecting b] = Some st' ∧
        Update.gameRooms st' !! "BCDABC" = Some room' ∧ a ∈ Update.players room' ∧
        Update.sockets st' = ∅
  | None => False
  end.
Proof.
  intros a b.
  destruct (Update.run _ _ _ _ _ _) as [st|] eqn:Hrun; [|vm_compute in Hrun; discriminate].
  pose proof (run_reachable _ _ _ _ _ _ _ (Update.reachable_init _ _ _) Hrun) as Hreach.
  vm_compute in Hrun. injection Hrun as Hst.
  assert (Hclosed : Update.sockets st !! a = None) by by_run Hst.
  split; [exact Hclosed|]. split; [by_run Hst|].
  destruct (Update.run (λ n, n) "A" ["B"; "C"; "D"]%char 0 st
              [Update.on_connection b; Update.on_joinRoom b "BCDABC";
               Update.on_disconnecting b]) as [st'|] eqn:Hrun';
    [|rewrite <- Hst in Hrun'; vm_compute in Hrun'; discriminate].
  destruct (departed_member_keeps_room (λ n, n) "A" ["B"; "C"; "D"]%char 0
              [Update.on_connection b; Update.on_joinRoom b "BCDABC";
               Update.on_disconnecting b] st st' "BCDABC"
              {| Update.code := "BCDABC"; Update.players := {[ a ]}; Update.wishlist := [] |}
              a Hreach) as (room' & Hroom' & Hin & _).
  - by_run Hst.
  - apply (bool_decide_unpack _). vm_compute. exact I.
  - exact Hclosed.
  - exact Hrun'.
  - exists st', room'. split; [done|]. split; [done|]. split; [done|].
    rewrite <- Hst in Hrun'. vm_compute in Hrun'. injection Hrun' as Hst'.
    by_run Hst'.
Defined.

(** X10, a run: a connects, creates room BCDABC and closes; the registry
    is empty again. *)
Lemma createRoom_then_disconnect_witness :
  let a := "AAAAAAAAAAAAAAAAAAAA" in
  match Update.run (λ n, n) "A" ["B"; "C"; "D"]%char 0 Update.init
          [Update.on_connection a] with
  | Some st =>
      ∃ st1 st2,
        Update.handle (λ n, n) "A" ["B"; "C"; "D"]%char 0 st (Update.on_createRoom a)
        = Some (Done (st1, [Emit {[ a ]} (generateCode "BCDABC")])) ∧
        Update.handle (λ n, n) "A" ["B"; "C"; "D"]%char 0 st1 (Update.on_disconnecting a)
        = Some (Done (st2, [])) ∧
        Update.gameRooms st2 = ∅
  | None => False
  end.
Proof.
  intros a.
  destruct (Update.run _ _ _ _ _ _) as [st|] eqn:Hrun; [|vm_compute in Hrun; discriminate].
  vm_compute in Hrun. injection Hrun as Hst.
  pose (ud := {| Update.name := "Player0"; Update.roomCode := "" |}).
  assert (Hs : Update.sockets st !! a = Some ud) by by_run Hst.
  destruct (Update.createRoom (λ n, n) "A" ["B"; "C"; "D"]%char 0 st a ud)
    as [[st1 out]| |] eqn:Hc;
    try (rewrite <- Hst in Hc; vm_compute in Hc; discriminate).
  destruct (createRoom_then_disconnect (λ n, n) "A" ["B"; "C"; "D"]%char 0 st a ud st1 out
              Hs Hc) as (c & st2 & Hout & _ & _ & Hclose & Hback & _).
  assert (Hcode : out = [Emit {[ a ]} (generateCode "BCDABC")]).
  { rewrite <- Hst in Hc. vm_compute in Hc. by injection Hc as _ <-. }
  exists st1, st2. split.
  { unfold Update.handle. rewrite Hs. simpl. by rewrite Hc, Hcode. }
  split; [exact Hclose|]. rewrite Hback. by_run Hst.
Defined.

(** X11, a run: a creates room BCDABC, b connects, joins it and closes;
    the registry is as before b joined. *)
Lemma joinRoom_then_disconnect_witness :
  let a := "AAAAAAAAAAAAAAAAAAAA" in
  let b := "BBBBBBBBBBBBBBBBBBBB" in
  match Update.run (λ n, n) "A" ["B"; "C"; "D"]%char 0 Update.init
          [Update.on_connection a; Update.on_createRoom a; Update.on_connection b] with
  | Some st =>
      ∃ st1 out st2,
        Update.handle (λ n, n) "A" ["B"; "C"; "D"]%char 0 st (Update.on_joinRoom b "BCDABC")
        = Some (Done (st1, out)) ∧
        Update.handle (λ n, n) "A" ["B"; "C"; "D"]%char 0 st1 (Update.on_disconnecting b)
        = Some (Done (st2, [])) ∧
        Update.gameRooms st2 = Update.gameRooms st
  | None => False
  end.
Proof.
  intros a b.
  destruct (Update.run _ _ _ _ _ _) as [st|] eqn:Hrun; [|vm_compute in Hrun; discriminate].
  pose proof (run_reachable _ _ _ _ _ _ _ (Update.reachable_init _ _ _) Hrun) as Hreach.
  vm_compute in Hrun. injection Hrun as Hst.
  apply (joinRoom_then_disconnect (λ n, n) "A" ["B"; "C"; "D"]%char 0 st b
           {| Update.name := "Player7"; Update.roomCode := "" |} "BCDABC"
           {| Update.code := "BCDABC"; Update.players := {[ a ]}; Update.wishlist := [] |}
           Hreach).
  - by_run Hst.
  - by_run Hst.
  - apply (bool_decide_unpack _). vm_compute. exact I.
Defined.

(** X12, a run: b joins room BCDABC twice. *)
Lemma joinRoom_again_witness :
  let a := "AAAAAAAAAAAAAAAAAAAA" in
  let b := "BBBBBBBBBBBBBBBBBBBB" in
  match Update.run (λ n, n) "A" ["B"; "C"; "D"]%char 0 Update.init
          [Update.on_connection a; Update.on_createRoom a; Update.on_connection b] with
  | Some st =>
      ∃ st1 out,
        Update.handle (λ n, n) "A" ["B"; "C"; "D"]%char 0 st (Update.on_joinRoom b "BCDABC")
        = Some (Done (st1, out)) ∧
        Update.handle (λ n, n) "A" ["B"; "C"; "D"]%char 0 st1 (Update.on_joinRoom b "BCDABC")
        = Some (Done (st1, out))
  | None => False
  end.
Proof.
  intros a b.
  destruct (Update.run _ _ _ _ _ _) as [st|] eqn:Hrun; [|vm_compute in Hrun; discriminate].
  vm_compute in Hrun. injection Hrun as Hst.
  apply (joinRoom_again (λ n, n) "A" ["B"; "C"; "D"]%char 0 st b
           {| Update.name := "Player7"; Update.roomCode := "" |} "BCDABC"
           {| Update.code := "BCDABC"; Update.players := {[ a ]}; Update.wishlist := [] |}).
  - by_run Hst.
  - by_run Hst.
Defined.

(** X13, a run: a and b sit in room BCDABC, a writes a wishlist; b, who
    receives it, is connected and a member of a's room. *)
Lemma update_emissions_scope_witness :
  let a := "AAAAAAAAAAAAAAAAAAAA" in
  let b := "BBBBBBBBBBBBBBBBBBBB" in
  match Update.run (λ n, n) "A" ["B"; "C"; "D"]%char 0 Update.init
          [Update.on_connection a; Update.on_createRoom a;
           Update.on_connection b; Update.on_joinRoom b "BCDABC"] with
  | Some st =>
      ∃ st' out,
        Update.handle (λ n, n) "A" ["B"; "C"; "D"]%char 0 st
          (Update.on_updateWishlist a ["sword"]) = Some (Done (st', out)) ∧
        received b out = [wishlistUpdated ["sword"]] ∧
        is_Some (Update.sockets st !! b) ∧
        ∃ ud room, Update.sockets st !! a = Some ud ∧
                   Update.gameRooms st !! Update.roomCode ud = Some room ∧
                   b ∈ Update.players room
  | None => False
  end.
Proof.
  intros a b.
  destruct (Update.run _ _ _ _ _ _) as [st|] eqn:Hrun; [|vm_compute in Hrun; discriminate].
  pose proof (run_reachable _ _ _ _ _ _ _ (Update.reachable_init _ _ _) Hrun) as Hreach.
  vm_compute in Hrun. injection Hrun as Hst.
  destruct (Update.handle (λ n, n) "A" ["B"; "C"; "D"]%char 0 st
              (Update.on_updateWishlist a ["sword"])) as [[[st' out]| |]|] eqn:Hh;
    try (rewrite <- Hst in Hh; vm_compute in Hh; discriminate).
  assert (Hrecv : received b out = [wishlistUpdated ["sword"]]).
  { rewrite <- Hst in Hh. vm_compute in Hh. injection Hh as _ <-. vm_compute. reflexivity. }
  exists st', out. split; [done|]. split; [exact Hrecv|].
  apply (update_emissions_scope (λ n, n) "A" ["B"; "C"; "D"]%char 0 st
           (Update.on_updateWishlist a ["sword"]) st' out b Hreach Hh).
  by rewrite Hrecv.
Defined.

(** ** Origin admission *)

(** X14.  The HTTP layer and the socket.io layer admit the same origins: a
    request that names no origin (or an empty one) and the three origins of
    allowedOrigins, compared as whole strings.  An origin that only begins
    with an allowed one is refused with 'Not allowed by CORS.'. *)
Theorem origins_admitted origin :
  Cors.io_origin origin = Cors.http_origin origin ∧
  (Cors.http_origin origin = Cors.allow ↔
   origin = None ∨ origin = Some "" ∨
   ∃ o, origin = Some o ∧ o ∈ Cors.allowedOrigins) ∧
  (∀ o rest, origin = Some (o +:+ rest) → o ∈ Cors.allowedOrigins → rest ≠ "" →
             Cors.http_origin origin = Cors.refuse "Not allowed by CORS.").
Proof.
  split; [reflexivity|]. split.
  - destruct origin as [o|]; simpl; [|split; [by left|done]].
    destruct (decide (o = "")) as [->|Hne]; [split; [by right; left|done]|].
    destruct (bool_decide (o ∈ Cors.allowedOrigins)) eqn:Hin.
    + apply bool_decide_eq_true in Hin. split; [eauto 6|done].
    + apply bool_decide_eq_false in Hin. split; [done|].
      intros [|[|(o' & ? & ?)]]; simplify_eq; done.
  - intros o rest -> Hin Hrest. simpl.
    assert (Hnot : (o +:+ rest ∉ Cors.allowedOrigins) ∧ (o +:+ rest ≠ "")).
    { unfold Cors.allowedOrigins in *.
      rewrite !elem_of_cons, elem_of_nil in Hin.
      rewrite !elem_of_cons, elem_of_nil.
      destruct Hin as [->|[->|[->|[]]]]; simpl;
        (split; [intros [H|[H|[H|[]]]]; vm_compute in H; simplify_eq; congruence
               | intros H; vm_compute in H; discriminate]). }
    destruct Hnot as [Hnot Hne].
    rewrite decide_False by done. by rewrite bool_decide_eq_false_2.
Qed.
